(** * Desk layout: a shallow embedding of [calculateDeskLayout.ts] and of
    the [reorderSubArray] helper, with the properties of the layout
    algorithm stated and proved over it.

    JavaScript values are modelled as follows.
    - [number]s that hold array indices, comparator results and ranks are
      integers of [Z] (all of them are integers of absolute value at most
      2^53 - 1, which the doubles of JavaScript hold exactly); counters
      that start at 0 and are only incremented are [nat].
    - An array is a [list]; [push] appends at the end.
    - [string | null] and [string | undefined] are [option string]; the
      two readings of [None] are kept apart where the code mixes them (the
      keys of [teamRankMap], see [MapKey]).
    - [console.warn] appends a line to a console log that is threaded
      through the code as the second component of a pair ([Console]). *)

From Stdlib Require Import String Ascii.
From Stdlib Require Import List ZArith Bool Lia Arith.
From Stdlib Require Import Permutation Sorted OrdersEx DecimalString RelationClasses.
Import ListNotations.

Set Implicit Arguments.

Local Open Scope Z_scope.

(* ================================================================= *)
(** ** Data model *)

(** Modelled from the spec: [DogStatus] is declared in the generated
    GraphQL module ([./generated/graphql]), which the code imports; the
    code uses its three members [Avoid], [Like] and [Have]. *)
Inductive DogStatus : Type := Avoid | Like | Have.

Definition DogStatus_eqb (a b : DogStatus) : bool :=
  match a, b with
  | Avoid, Avoid | Like, Like | Have, Have => true
  | _, _ => false
  end.

(** Modelled from the spec: a team as the [people] query returns it, an
    id and a display name. *)
Module Team.
Record t : Type := mk { id : string; name : string }.
End Team.

(** Modelled from the spec: [Person] is [PeopleQuery['people'][0]] of the
    generated GraphQL module: an id, an optional team and a dog status. *)
Module Person.
Record t : Type :=
  mk { id : string; team : option Team.t; dogStatus : DogStatus }.
End Person.

Abbreviation Person := Person.t.

(** [enum TeamCategory], with the ordinal TypeScript gives each member. *)
Inductive TeamCategory : Type := DOG_HATERS | MIXED | NO_TEAM | DOG_LOVERS.

Definition TeamCategory_ord (c : TeamCategory) : Z :=
  match c with
  | DOG_HATERS => 0
  | MIXED => 1
  | NO_TEAM => 2
  | DOG_LOVERS => 3
  end.

(** [type TeamSummary]; [teamId = None] is JavaScript's [null]. *)
Record TeamSummary : Type :=
  { teamId : option string; category : TeamCategory }.

(** [DogStatusOrder]. *)
Definition DogStatusOrder (d : DogStatus) : Z :=
  match d with
  | Avoid => 1
  | Like => 2
  | Have => 3
  end.

(** [Record<DogStatus, number>] as the classifier uses it: three
    counters. *)
Record DogStatusCount : Type := { AVOID : nat; LIKE : nat; HAVE : nat }.

(* ================================================================= *)
(** ** JavaScript helpers *)

(** [person.team?.id]: the id of the team, [None] for [undefined]. *)
Definition teamIdOf (p : Person) : option string :=
  option_map Team.id (Person.team p).

(** Truthiness of a [string | null | undefined]: the empty string, [null]
    and [undefined] are falsy. *)
Definition truthy (o : option string) : bool :=
  match o with
  | Some s => negb (String.eqb s EmptyString)
  | None => false
  end.

(** Loose equality [==] on two values of the same nullable string type. *)
Definition looseEq (a b : option string) : bool :=
  match a, b with
  | Some x, Some y => String.eqb x y
  | None, None => true
  | _, _ => false
  end.

(** [a.localeCompare(b)]: negative, zero or positive.  The collation of
    the host is a total preorder on strings that does not tell all
    strings apart: two ids that differ only by characters the collation
    ignores compare equal.  It is modelled by the order of the character
    codes on the collation keys, the key of a string being the string
    without its ignorable characters (of the ASCII characters, the
    control characters U+0000 to U+0008, U+000E to U+001F and U+007F).
    On ids of lower-case letters and digits, as in the examples below,
    the order of the character codes is the order of the host.  What is
    proved below for all inputs uses the collation through its laws only
    ([localeCompare_opp], [localeCompare_trans], [localeCompare_tie]), and
    where two different ids must compare different the statement says so
    ([teamsCollateApart]). *)
Definition ignorable (c : ascii) : bool :=
  let n := N_of_ascii c in
  ((n <? 9) || ((13 <? n) && (n <? 32)) || (n =? 127))%N.

Fixpoint collationKey (s : string) : string :=
  match s with
  | EmptyString => EmptyString
  | String c rest =>
      if ignorable c then collationKey rest else String c (collationKey rest)
  end.

Definition localeCompare (a b : string) : Z :=
  match String_as_OT.compare (collationKey a) (collationKey b) with
  | Lt => -1
  | Eq => 0
  | Gt => 1
  end.

(** [Array.prototype.sort(cmp)]: a stable sort; [x] is put before the
    first element that does not compare below it.  For a consistent
    comparator every stable sort returns the same array.  For an
    inconsistent one ECMAScript leaves the order to the implementation:
    the comparator of the first sort is inconsistent when teamless people
    meet two teams or when the collation ties the ids of two teams, and
    what is proved below for all inputs that may do so uses of the first
    sort only that it returns a permutation. *)
Fixpoint insert {A : Type} (cmp : A -> A -> Z) (x : A) (l : list A) : list A :=
  match l with
  | [] => [x]
  | y :: t => if cmp x y <=? 0 then x :: y :: t else y :: insert cmp x t
  end.

Definition sort {A : Type} (cmp : A -> A -> Z) (l : list A) : list A :=
  fold_right (insert cmp) [] l.

(** [array.length] as a number. *)
Definition len {A : Type} (l : list A) : Z := Z.of_nat (List.length l).

(** [array.slice(from, to)], with JavaScript's treatment of negative and
    of too large indices. *)
Definition relIndex {A : Type} (l : list A) (k : Z) : Z :=
  if k <? 0 then Z.max (len l + k) 0 else Z.min k (len l).

Definition slice {A : Type} (l : list A) (from to : Z) : list A :=
  let f := relIndex l from in
  let t := relIndex l to in
  firstn (Z.to_nat (t - f)) (skipn (Z.to_nat f) l).

(** [array.slice(from)]. *)
Definition sliceFrom {A : Type} (l : list A) (from : Z) : list A :=
  slice l from (len l).

(** The console: a computation returns its value and the lines it has
    written with [console.warn]. *)
Definition Console (A : Type) : Type := (A * list string)%type.

Definition ret {A : Type} (a : A) : Console A := (a, []).

Definition bind {A B : Type} (m : Console A) (k : A -> Console B) : Console B :=
  let (a, w) := m in
  let (b, w') := k a in
  (b, w ++ w').

Definition warn (line : string) : Console unit := (tt, [line]).

Notation "x <- m ;; k" := (bind m (fun x => k))
  (at level 61, m at next level, right associativity).

(** A number in a template literal. *)
Definition showNumber (z : Z) : string := NilZero.string_of_int (Z.to_int z).

(* ================================================================= *)
(** ** [helper/array]: [reorderSubArray] *)

Definition invalidRange {A : Type} (array : list A) (start end_ : Z) : bool :=
  (start <? 0) || (end_ >=? len array) || (start >? end_).

Definition warningLine (start end_ : Z) : string :=
  ("start:" ++ showNumber start ++ " or end:" ++ showNumber end_
     ++ " invalid. Returning original array.")%string.

Definition reorderSubArray {A : Type} (array : list A) (start end_ : Z)
    (reOrderLogic : list A -> list A) : Console (list A) :=
  if invalidRange array start end_ then
    _ <- warn (warningLine start end_) ;;
    ret array
  else
    let before := slice array 0 start in
    let after := sliceFrom array (end_ + 1) in
    let targetSubarray := slice array start (end_ + 1) in
    ret (before ++ reOrderLogic targetSubarray ++ after).

(* ================================================================= *)
(** ** [calculateDeskLayout.ts]: the classifier *)

Definition categoriseTeam (teamDogStatusCount : DogStatusCount) : TeamCategory :=
  if (AVOID teamDogStatusCount =? 0)%nat then DOG_LOVERS
  else if (HAVE teamDogStatusCount =? 0)%nat then DOG_HATERS
  else if (0 <? AVOID teamDogStatusCount)%nat && (0 <? HAVE teamDogStatusCount)%nat
       then MIXED
  else NO_TEAM.

(** [sortByTeamAndDogStatus], the comparator of the first sort. *)
Definition sortByTeamAndDogStatus (personA personB : Person) : Z :=
  let byDogStatus :=
    if DogStatusOrder (Person.dogStatus personA) <? DogStatusOrder (Person.dogStatus personB)
    then -1
    else if DogStatusOrder (Person.dogStatus personA) >? DogStatusOrder (Person.dogStatus personB)
    then 1
    else 0 in
  match Person.team personA, Person.team personB with
  | Some teamA, Some teamB =>
      if negb (String.eqb (Team.id teamA) (Team.id teamB))
      then localeCompare (Team.id teamA) (Team.id teamB)
      else byDogStatus
  | _, _ => byDogStatus
  end.

(** The state of the loop of [sortTeamsByCategory]: the three variables
    the body of [forEach] updates. *)
Record ClassifierState : Type :=
  { currSummary : TeamSummary;
    teamDogStatusCount : DogStatusCount;
    teamSummaries : list TeamSummary }.

Definition zeroCount : DogStatusCount := {| AVOID := 0; LIKE := 0; HAVE := 0 |}.

Definition countStatus (status : DogStatus) (c : DogStatusCount) : DogStatusCount :=
  match status with
  | Avoid => {| AVOID := S (AVOID c); LIKE := LIKE c; HAVE := HAVE c |}
  | Have => {| AVOID := AVOID c; LIKE := LIKE c; HAVE := S (HAVE c) |}
  | Like => {| AVOID := AVOID c; LIKE := S (LIKE c); HAVE := HAVE c |}
  end.

(** [person.team?.id ?? null] has the same [option] as [person.team?.id]:
    [None] now reads [null]. *)
Definition freshSummary (person : Person) : TeamSummary :=
  {| teamId := teamIdOf person; category := NO_TEAM |}.

(** [currTeam.category = categoriseTeam(...)] followed by [push]. *)
Definition closeRun (st : ClassifierState) : list TeamSummary :=
  teamSummaries st
    ++ [ {| teamId := teamId (currSummary st);
            category := categoriseTeam (teamDogStatusCount st) |} ].

(** One iteration of the [forEach] of [sortTeamsByCategory]. *)
Definition classifyStep (st : ClassifierState) (person : Person) : ClassifierState :=
  let st1 :=
    if negb (truthy (teamId (currSummary st)))
    then {| currSummary := freshSummary person;
            teamDogStatusCount := teamDogStatusCount st;
            teamSummaries := teamSummaries st |}
    else st in
  let st2 :=
    if negb (looseEq (teamId (currSummary st1)) (teamIdOf person))
    then {| currSummary := freshSummary person;
            teamDogStatusCount := zeroCount;
            teamSummaries := closeRun st1 |}
    else st1 in
  {| currSummary := currSummary st2;
     teamDogStatusCount := countStatus (Person.dogStatus person) (teamDogStatusCount st2);
     teamSummaries := teamSummaries st2 |}.

Definition classifierInit : ClassifierState :=
  {| currSummary := {| teamId := None; category := NO_TEAM |};
     teamDogStatusCount := zeroCount;
     teamSummaries := [] |}.

(** The comparator of the sort that ends [sortTeamsByCategory]. *)
Definition byCategory (teamA teamB : TeamSummary) : Z :=
  TeamCategory_ord (category teamA) - TeamCategory_ord (category teamB).

Definition sortTeamsByCategory (people : list Person) : list TeamSummary :=
  sort byCategory (closeRun (fold_left classifyStep people classifierInit)).

(* ================================================================= *)
(** ** The rank map and the second sort *)

(** The keys [teamRankMap] is used with.  The casts [as string] hide that
    [set] is given a [string | null] and [get] a [string | undefined];
    a [Map] compares keys with SameValueZero, for which [null] and
    [undefined] differ. *)
Inductive MapKey : Type :=
| KString (s : string)
| KNull
| KUndefined.

Definition MapKey_eqb (a b : MapKey) : bool :=
  match a, b with
  | KString x, KString y => String.eqb x y
  | KNull, KNull => true
  | KUndefined, KUndefined => true
  | _, _ => false
  end.

(** [tp.teamId as string]. *)
Definition keyOfSummary (s : TeamSummary) : MapKey :=
  match teamId s with
  | Some i => KString i
  | None => KNull
  end.

(** [person.team?.id as string]. *)
Definition keyOfPerson (p : Person) : MapKey :=
  match teamIdOf p with
  | Some i => KString i
  | None => KUndefined
  end.

(** [Map<string, number>]: the entries in insertion order. *)
Definition RankMap : Type := list (MapKey * Z).

Fixpoint Map_set (m : RankMap) (k : MapKey) (v : Z) : RankMap :=
  match m with
  | [] => [(k, v)]
  | (k', v') :: t =>
      if MapKey_eqb k k' then (k, v) :: t else (k', v') :: Map_set t k v
  end.

Fixpoint Map_get (m : RankMap) (k : MapKey) : option Z :=
  match m with
  | [] => None
  | (k', v') :: t => if MapKey_eqb k k' then Some v' else Map_get t k
  end.

Definition buildTeamRankMap (summaries : list TeamSummary) : RankMap :=
  fold_left
    (fun m tp => Map_set m (keyOfSummary tp) (TeamCategory_ord (category tp)))
    summaries [].

Definition MAX_SAFE_INTEGER : Z := 9007199254740991.

(** [teamRankMap.get(person.team?.id as string) ?? Number.MAX_SAFE_INTEGER]. *)
Definition rankOf (teamRankMap : RankMap) (person : Person) : Z :=
  match Map_get teamRankMap (keyOfPerson person) with
  | Some r => r
  | None => MAX_SAFE_INTEGER
  end.

(** The comparator of the second sort. *)
Definition compareByTeamRank (teamRankMap : RankMap) (personA personB : Person) : Z :=
  let rankA := rankOf teamRankMap personA in
  let rankB := rankOf teamRankMap personB in
  if negb (rankA =? rankB) then rankA - rankB
  else
    match Person.team personA, Person.team personB with
    | Some teamA, Some teamB =>
        let teamIdComparison := localeCompare (Team.id teamA) (Team.id teamB) in
        if negb (teamIdComparison =? 0) then teamIdComparison else 0
    | _, _ => 0
    end.

(* ================================================================= *)
(** ** The interleave transform *)

(** [arr.findIndex(pred)], [pred] being given the item, its index and the
    array; [-1] when no item satisfies it. *)
Fixpoint findIndexFrom {A : Type} (pred : A -> Z -> list A -> bool)
    (arr rest : list A) (index : Z) : Z :=
  match rest with
  | [] => -1
  | item :: rest' =>
      if pred item index arr then index
      else findIndexFrom pred arr rest' (index + 1)
  end.

Definition findIndex {A : Type} (pred : A -> Z -> list A -> bool) (arr : list A) : Z :=
  findIndexFrom pred arr arr 0.

(** The first [while] of [insertPeopleWithDogLogic].  The two cursors are
    represented by what is left of each group; the result is the array
    built so far and the two remainders. *)
Fixpoint alternateLoop {A : Type} (groupA groupB resultArray : list A)
    : list A * list A * list A :=
  match groupA, groupB with
  | a :: restA, b :: restB => alternateLoop restA restB (resultArray ++ [a; b])
  | _, _ => (resultArray, groupA, groupB)
  end.

(** The three loops: alternate, then exhaust [groupA], then [groupB]. *)
Definition alternate {A : Type} (groupA groupB : list A) : list A :=
  let '(resultArray, restA, restB) := alternateLoop groupA groupB [] in
  resultArray ++ restA ++ restB.

(** The predicate given to [findIndex]: [index > 0] and a dog status that
    differs from the one of [arr[0]]. *)
Definition differsFromFirst (item : Person) (index : Z) (arr : list Person) : bool :=
  (index >? 0) &&
  match arr with
  | [] => false
  | first :: _ =>
      negb (DogStatus_eqb (Person.dogStatus item) (Person.dogStatus first))
  end.

Definition insertPeopleWithDogLogic (subArray : list Person) : list Person :=
  if len subArray <=? 3 then subArray
  else
    let splitPoint := findIndex differsFromFirst subArray in
    if negb (splitPoint =? -1) then
      let groupA := slice subArray 0 splitPoint in
      let groupB := sliceFrom subArray splitPoint in
      alternate groupA groupB
    else subArray.

(* ================================================================= *)
(** ** The interleaving pass and [calculateDeskLayout] *)

(** The variables the last [forEach] of [calculateDeskLayout] updates;
    [currTeam = None] is [undefined]. *)
Record ScanState : Type :=
  { currTeam : option string;
    startPointer : Z;
    startSearchFlag : bool;
    updatedPeople : list Person }.

Definition scanInit (sortedPeople : list Person) : ScanState :=
  {| currTeam := None;
     startPointer := 0;
     startSearchFlag := false;
     updatedPeople := sortedPeople |}.

(** The test that closes a run. *)
Definition closesRun (st : ScanState) (person : Person) : bool :=
  startSearchFlag st
  && (negb (looseEq (teamIdOf person) (currTeam st))
      || (looseEq (teamIdOf person) (currTeam st)
          && DogStatus_eqb (Person.dogStatus person) Avoid)).

(** [if(!currTeam) currTeam = person.team?.id]. *)
Definition refreshCurrTeam (st : ScanState) (person : Person) : ScanState :=
  if negb (truthy (currTeam st))
  then {| currTeam := teamIdOf person;
          startPointer := startPointer st;
          startSearchFlag := startSearchFlag st;
          updatedPeople := updatedPeople st |}
  else st.

(** One iteration of the last [forEach]. *)
Definition scanStep (st : ScanState) (person : Person) (index : Z)
    : Console ScanState :=
  let st1 := refreshCurrTeam st person in
  st2 <- (if closesRun st1 person then
            reordered <- reorderSubArray (updatedPeople st1) (startPointer st1)
                           (index - 1) insertPeopleWithDogLogic ;;
            ret {| currTeam := currTeam st1;
                   startPointer := startPointer st1;
                   startSearchFlag := false;
                   updatedPeople := reordered |}
          else ret st1) ;;
  if negb (startSearchFlag st2)
     && negb (DogStatus_eqb (Person.dogStatus person) Avoid)
  then ret {| currTeam := teamIdOf person;
              startPointer := index;
              startSearchFlag := true;
              updatedPeople := updatedPeople st2 |}
  else ret st2.

(** [forEach] with the index, in the console monad. *)
Fixpoint forEachIndexed {A S : Type} (body : S -> A -> Z -> Console S)
    (l : list A) (index : Z) (st : S) : Console S :=
  match l with
  | [] => ret st
  | x :: t =>
      st' <- body st x index ;;
      forEachIndexed body t (index + 1) st'
  end.

(** The interleaving pass: the scan and the flush that follows it. *)
Definition interleavingPass (sortedPeople : list Person) : Console (list Person) :=
  st <- forEachIndexed scanStep sortedPeople 0 (scanInit sortedPeople) ;;
  if startSearchFlag st
  then reorderSubArray (updatedPeople st) (startPointer st)
         (len (updatedPeople st) - 1) insertPeopleWithDogLogic
  else ret (updatedPeople st).

(** The first sort. *)
Definition groupByTeam (people : list Person) : list Person :=
  sort sortByTeamAndDogStatus people.

(** The rank map and the second sort, from the array the first sort
    leaves. *)
Definition teamRankMapOf (grouped : list Person) : RankMap :=
  buildTeamRankMap (sortTeamsByCategory grouped).

Definition rankTeams (grouped : list Person) : list Person :=
  sort (compareByTeamRank (teamRankMapOf grouped)) grouped.

(** [calculateDeskLayout] with its console output. *)
Definition calculateDeskLayout_run (people : list Person) : Console (list Person) :=
  interleavingPass (rankTeams (groupByTeam people)).

Definition calculateDeskLayout (people : list Person) : list Person :=
  fst (calculateDeskLayout_run people).

(* ================================================================= *)
(** ** [TeamsPage]: what the mutations write to the cache

    The callbacks read a query from the Apollo cache, compute a new list
    and write it back.  A read is modelled by its result ([None] when the
    query is not in the cache); a callback returns what it writes, [None]
    when it leaves before writing. *)

(** A member of a team as the page uses it:
    [{ id: string; name: string }]. *)
Module Member.
Record t : Type := mk { id : string; name : string }.
End Member.

(** A team of the teams query, as the page uses it: [team.id],
    [team.name] and [team.members]. *)
Module TeamWithMembers.
Record t : Type :=
  mk { id : string; name : string; members : list Member.t }.
End TeamWithMembers.

(** The [update] of [putTeam]; [data] is [data.putTeam] when [data] is
    there, [variablesId] is [variables?.id]. *)
Definition putTeam_update (cachedTeams : option (list TeamWithMembers.t))
    (data : option TeamWithMembers.t) (variablesId : option string)
    : option (list TeamWithMembers.t) :=
  match data, cachedTeams with
  | Some putTeam, Some teams =>
      Some (if truthy variablesId
            then map (fun team =>
                        if String.eqb (TeamWithMembers.id team)
                                      (TeamWithMembers.id putTeam)
                        then putTeam else team) teams
            else teams ++ [putTeam])
  | _, _ => None
  end.

(** The function [setTeam]'s [update] maps over the teams; [userId] is
    [data.setTeam.id]. *)
Definition withoutMember (userId : string) (team : TeamWithMembers.t)
    : TeamWithMembers.t :=
  let memberIsCurrentlyInThisTeam :=
    existsb (fun member => String.eqb (Member.id member) userId)
      (TeamWithMembers.members team) in
  if memberIsCurrentlyInThisTeam then
    let newMembers :=
      filter (fun member => negb (String.eqb (Member.id member) userId))
        (TeamWithMembers.members team) in
    TeamWithMembers.mk (TeamWithMembers.id team) (TeamWithMembers.name team)
      newMembers
  else team.

(** The [update] of [setTeam]: what it writes for the teams query and
    for the people query; [data] is [data.setTeam] when [data] is there,
    [cachedPeople] what the people query gives after the teams have been
    written. *)
Definition setTeam_update (cachedTeams : option (list TeamWithMembers.t))
    (cachedPeople : option (list Person)) (data : option Person)
    : option (list TeamWithMembers.t) * option (list Person) :=
  match data, cachedTeams with
  | Some setTeam, Some teams =>
      let teams' := map (withoutMember (Person.id setTeam)) teams in
      match cachedPeople with
      | Some people =>
          (Some teams',
           Some (map (fun person =>
                        if String.eqb (Person.id person) (Person.id setTeam)
                        then setTeam else person) people))
      | None => (Some teams', None)
      end
  | _, _ => (None, None)
  end.

(** [handleEditTeamChange]: what it writes for the teams query; [teams]
    is [data?.teams]. *)
Definition handleEditTeamChange (teams : option (list TeamWithMembers.t))
    (teamId name : string) : option (list TeamWithMembers.t) :=
  match teams with
  | None => None
  | Some teams =>
      Some (map (fun p =>
                   if String.eqb (TeamWithMembers.id p) teamId
                   then TeamWithMembers.mk (TeamWithMembers.id p) name
                          (TeamWithMembers.members p)
                   else p) teams)
  end.

(* ================================================================= *)
(** * Vocabulary of the properties *)

(** The group an element of the interleaved result was taken from. *)
Inductive Group : Type := GroupA | GroupB.

Definition Group_eqb (g h : Group) : bool :=
  match g, h with
  | GroupA, GroupA | GroupB, GroupB => true
  | _, _ => false
  end.

(** The number of elements at the head of [l] that are [g]. *)
Fixpoint leadingRun (g : Group) (l : list Group) : nat :=
  match l with
  | [] => 0
  | h :: t => if Group_eqb g h then S (leadingRun g t) else 0
  end.

(** The length of the longest block of consecutive equal elements. *)
Fixpoint longestRun (l : list Group) : nat :=
  match l with
  | [] => 0
  | g :: t => Nat.max (S (leadingRun g t)) (longestRun t)
  end.

(** The three loops of [insertPeopleWithDogLogic] run on the two groups
    with every element labelled by its group: the labels of the result
    tell where each of its elements comes from. *)
Definition alternateTagged {A : Type} (groupA groupB : list A) : list (Group * A) :=
  alternate (map (pair GroupA) groupA) (map (pair GroupB) groupB).

(** Sample people: somebody without a team, and a member of the team
    with the given id. *)
Definition teamless (id : string) (status : DogStatus) : Person :=
  Person.mk id None status.

Definition member (id team : string) (status : DogStatus) : Person :=
  Person.mk id (Some (Team.mk team team)) status.

(** Two who like dogs followed by two who have one. *)
Definition twoLikeTwoHave : list Person :=
  [ teamless "p1" Like; teamless "p2" Like;
    teamless "p3" Have; teamless "p4" Have ].

(** A team id the code can tell from "no team": JavaScript takes the
    empty string for false, as it does [null] and [undefined]. *)
Definition validId (p : Person) : Prop :=
  forall i, teamIdOf p = Some i -> i <> EmptyString.

Definition validIdb (p : Person) : bool :=
  match teamIdOf p with
  | Some i => negb (String.eqb i EmptyString)
  | None => true
  end.

(** Well-formed input: every team has a valid id. *)
Definition validIds (people : list Person) : Prop :=
  forallb validIdb people = true.

(** The ranks of the people the second sort is given: the maximum for
    the teamless, the ordinal of a category for the others. *)
Definition ranked (m : RankMap) (p : Person) : Prop :=
  match teamIdOf p with
  | None => rankOf m p = MAX_SAFE_INTEGER
  | Some _ => 0 <= rankOf m p <= 3
  end.

(** Nobody with a team comes after somebody without one. *)
Definition teamlessLast (l : list Person) : Prop :=
  StronglySorted (fun p q => teamIdOf p = None -> teamIdOf q = None) l.

(** Whoever stands between two members of a team is a member of it. *)
Definition teamsContiguous (l : list Person) : Prop :=
  forall i j k p q r t,
    (i < j < k)%nat ->
    nth_error l i = Some p -> nth_error l j = Some q -> nth_error l k = Some r ->
    teamIdOf p = Some t -> teamIdOf r = Some t ->
    teamIdOf q = Some t.


(** What holds of the state of the last [forEach] when the people of
    [pre] have been visited: [updatedPeople] is a rearrangement of
    [sortedPeople]; an open run starts at an index already visited; and,
    when [sortedPeople] has valid team ids and its teamless people last,
    [updatedPeople] has the team ids of [sortedPeople] position by
    position and the people of the open run are all of team [currTeam]. *)
Definition scanInv (sortedPeople pre : list Person) (st : ScanState) : Prop :=
  Permutation (updatedPeople st) sortedPeople
  /\ (startSearchFlag st = true -> 0 <= startPointer st < len pre)
  /\ (Forall validId sortedPeople -> teamlessLast sortedPeople ->
      map teamIdOf (updatedPeople st) = map teamIdOf sortedPeople
      /\ (startSearchFlag st = true ->
          Forall (fun y => y = currTeam st)
            (skipn (Z.to_nat (startPointer st)) (map teamIdOf pre)))).

(** The contiguous team runs of a sequence of people: the maximal blocks
    of neighbours with the same team id (no team counts as one id). *)
Definition keyOfRun (run : list Person) : option string :=
  match run with
  | p :: _ => teamIdOf p
  | [] => None
  end.

Fixpoint teamRuns (people : list Person) : list (list Person) :=
  match people with
  | [] => []
  | p :: rest =>
      match teamRuns rest with
      | run :: runs =>
          if looseEq (teamIdOf p) (keyOfRun run)
          then (p :: run) :: runs
          else [p] :: run :: runs
      | [] => [[p]]
      end
  end.

(** The counters after the people of a run have been counted. *)
Definition countRun (start : DogStatusCount) (run : list Person) : DogStatusCount :=
  fold_left (fun c p => countStatus (Person.dogStatus p) c) run start.

(** The summary of a run: its team id and the category of its counts. *)
Definition summaryOfRun (run : list Person) : TeamSummary :=
  {| teamId := keyOfRun run;
     category := categoriseTeam (countRun zeroCount run) |}.



(** A team that only has dogs and somebody without a team who has one. *)
Definition loversAndTeamless : list Person :=
  [ member "A" "lovers" Have; teamless "N" Have ].

(** Two teams, their members in no order. *)
Definition twoTeams : list Person :=
  [ member "b1" "b" Have; member "a1" "a" Avoid;
    member "b2" "b" Avoid; member "a2" "a" Like ].


(** A team whose id is the empty string, and two people without a
    team. *)
Definition emptyTeamId : list Person :=
  [ member "e1" "" Avoid; teamless "n" Like;
    member "e2" "" Have; teamless "z" Have ].





(** The person when the person avoids dogs, nothing otherwise. *)
Definition avoider (p : Person) : option Person :=
  if DogStatus_eqb (Person.dogStatus p) Avoid then Some p else None.

(** What holds of those who avoid dogs when the people of [pre] have
    been visited by the last [forEach]: [updatedPeople] has them where
    [sortedPeople] has them, and nobody of the open run avoids dogs. *)
Definition avoidersInv (sortedPeople pre : list Person) (st : ScanState) : Prop :=
  map avoider (updatedPeople st) = map avoider sortedPeople
  /\ (startSearchFlag st = true ->
      Forall (fun y => y = None)
        (skipn (Z.to_nat (startPointer st)) (map avoider pre))).

(** The people who do not avoid dogs. *)
Definition nonAvoiders (l : list Person) : list Person :=
  filter (fun p => negb (DogStatus_eqb (Person.dogStatus p) Avoid)) l.






(** The id "a" followed by the control character U+0001, which the
    collation ignores. *)
Definition idWithIgnorable : string :=
  String "a"%char (String (ascii_of_nat 1) EmptyString).

(** Two members of team "a" with, between them, a member of the team
    whose id is "a" followed by U+0001. *)
Definition tiedTeams : list Person :=
  [ member "m1" "a" Like; member "m2" idWithIgnorable Like;
    member "m3" "a" Avoid ].

(* ================================================================= *)
(** * Properties *)

Unset Implicit Arguments.

Lemma DogStatus_eqb_spec a b : reflect (a = b) (DogStatus_eqb a b).
Proof. destruct a, b; constructor; congruence. Qed.

(** ** Arrays: [slice] and [sort] *)

Lemma relIndex_inside {A : Type} (l : list A) (k : Z) :
  0 <= k <= len l -> relIndex l k = k.
Proof.
  intros H. unfold relIndex.
  destruct (k <? 0) eqn:E; [apply Z.ltb_lt in E; lia | lia].
Qed.

Lemma len_nonneg {A : Type} (l : list A) : 0 <= len l.
Proof. unfold len. lia. Qed.

Lemma len_app {A : Type} (l1 l2 : list A) : len (l1 ++ l2) = len l1 + len l2.
Proof. unfold len. rewrite length_app. lia. Qed.

Lemma len_snoc {A : Type} (l : list A) (x : A) : len (l ++ [x]) = len l + 1.
Proof. rewrite len_app. reflexivity. Qed.

Lemma slice_prefix {A : Type} (l : list A) (k : Z) :
  0 <= k <= len l -> slice l 0 k = firstn (Z.to_nat k) l.
Proof.
  intros H. unfold slice.
  rewrite (relIndex_inside l k) by lia.
  rewrite (relIndex_inside l 0) by (pose proof (len_nonneg l); lia).
  simpl. f_equal. lia.
Qed.

Lemma slice_suffix {A : Type} (l : list A) (k : Z) :
  0 <= k <= len l -> sliceFrom l k = skipn (Z.to_nat k) l.
Proof.
  intros H. unfold sliceFrom, slice.
  rewrite (relIndex_inside l k) by lia.
  rewrite (relIndex_inside l (len l)) by lia.
  apply firstn_all2. rewrite length_skipn. unfold len. lia.
Qed.

Lemma slice_middle {A : Type} (l : list A) (s e : Z) :
  0 <= s -> s <= e -> e <= len l ->
  slice l s e = firstn (Z.to_nat (e - s)) (skipn (Z.to_nat s) l).
Proof.
  intros H1 H2 H3. unfold slice.
  rewrite (relIndex_inside l s), (relIndex_inside l e) by lia.
  reflexivity.
Qed.

(** An array is its prefix, its middle and its suffix. *)
Lemma split_three {A : Type} (l : list A) (s n : nat) :
  l = firstn s l ++ firstn n (skipn s l) ++ skipn (s + n) l.
Proof.
  rewrite <- (firstn_skipn s l) at 1. f_equal.
  rewrite <- (firstn_skipn n (skipn s l)) at 1. f_equal.
  rewrite skipn_skipn. f_equal. lia.
Qed.

Lemma insert_perm {A : Type} (cmp : A -> A -> Z) (x : A) (l : list A) :
  Permutation (insert cmp x l) (x :: l).
Proof.
  induction l as [|y t IH]; simpl.
  - apply Permutation_refl.
  - destruct (cmp x y <=? 0).
    + apply Permutation_refl.
    + eapply perm_trans; [apply perm_skip, IH | apply perm_swap].
Qed.

Lemma sort_perm {A : Type} (cmp : A -> A -> Z) (l : list A) :
  Permutation (sort cmp l) l.
Proof.
  induction l as [|x t IH]; simpl.
  - apply perm_nil.
  - eapply perm_trans; [apply insert_perm | apply perm_skip, IH].
Qed.

(** [sort] orders its argument whenever the comparator is consistent on
    the elements it is given: here, on the elements that satisfy [P]. *)
Section SortSorted.
Variable A : Type.
Variable cmp : A -> A -> Z.
Variable P : A -> Prop.
Hypothesis cmp_total : forall x y, P x -> P y -> cmp x y > 0 -> cmp y x <= 0.
Hypothesis cmp_trans :
  forall x y z, P x -> P y -> P z -> cmp x y <= 0 -> cmp y z <= 0 -> cmp x z <= 0.

Let le (x y : A) : Prop := cmp x y <= 0.

Lemma insert_Forall (Q : A -> Prop) x l :
  Q x -> Forall Q l -> Forall Q (insert cmp x l).
Proof.
  intros Hx Hl.
  eapply Permutation_Forall; [apply Permutation_sym, insert_perm|].
  constructor; assumption.
Qed.

Lemma insert_sorted x l :
  P x -> Forall P l -> StronglySorted le l -> StronglySorted le (insert cmp x l).
Proof.
  intros Px Pl Hs. induction Hs as [|y t Hs IH Hy]; simpl.
  - repeat constructor.
  - inversion Pl as [|? ? Py Pt]; subst.
    destruct (cmp x y <=? 0) eqn:E.
    + apply Z.leb_le in E. constructor.
      * constructor; assumption.
      * constructor; [exact E|].
        rewrite Forall_forall in Hy, Pt |- *. intros z Hz.
        apply (cmp_trans x y z); auto. apply Hy, Hz.
    + apply Z.leb_gt in E. constructor.
      * apply IH; assumption.
      * apply insert_Forall; [|assumption].
        apply cmp_total; auto; lia.
Qed.

Lemma sort_sorted l : Forall P l -> StronglySorted le (sort cmp l).
Proof.
  induction l as [|x t IH]; intros Hl; simpl.
  - constructor.
  - inversion Hl; subst. apply insert_sorted; auto.
    eapply Permutation_Forall; [apply Permutation_sym, sort_perm | assumption].
Qed.
End SortSorted.

(** In a strongly sorted list the relation holds between any two
    positions in order. *)
Lemma StronglySorted_nth {A : Type} (R : A -> A -> Prop) (l : list A) :
  StronglySorted R l ->
  forall i j x y, (i < j)%nat ->
    nth_error l i = Some x -> nth_error l j = Some y -> R x y.
Proof.
  induction 1 as [|a t Hs IH Ha]; intros i j x y Hij Hi Hj.
  - destruct i; discriminate.
  - destruct j as [|j]; [lia|]. simpl in Hj.
    destruct i as [|i]; simpl in Hi.
    + injection Hi as <-. rewrite Forall_forall in Ha.
      apply Ha. eapply nth_error_In; eassumption.
    + apply (IH i j); auto. lia.
Qed.

(* ----------------------------------------------------------------- *)
(** ** [reorderSubArray] *)

Lemma invalidRange_false {A : Type} (array : list A) (start end_ : Z) :
  invalidRange array start end_ = false <->
  0 <= start /\ start <= end_ /\ end_ < len array.
Proof.
  unfold invalidRange. rewrite !orb_false_iff.
  rewrite Z.ltb_ge, Z.geb_leb, Z.leb_gt, Z.gtb_ltb, Z.ltb_ge. lia.
Qed.

Lemma invalidRange_true {A : Type} (array : list A) (start end_ : Z) :
  invalidRange array start end_ = true <->
  start < 0 \/ end_ >= len array \/ start > end_.
Proof.
  unfold invalidRange. rewrite !orb_true_iff.
  rewrite Z.ltb_lt, Z.geb_leb, Z.leb_le, Z.gtb_ltb, Z.ltb_lt. lia.
Qed.

(** The value of [reorderSubArray] on a valid range, with [firstn] and
    [skipn]. *)
Lemma reorderSubArray_eq {A : Type} (array : list A) (start end_ : Z)
    (f : list A -> list A) :
  0 <= start -> start <= end_ -> end_ < len array ->
  reorderSubArray array start end_ f =
  (firstn (Z.to_nat start) array
     ++ f (firstn (Z.to_nat (end_ - start + 1)) (skipn (Z.to_nat start) array))
     ++ skipn (Z.to_nat (end_ + 1)) array, []).
Proof.
  intros H1 H2 H3. unfold reorderSubArray.
  destruct (invalidRange array start end_) eqn:E.
  - apply invalidRange_true in E. lia.
  - unfold ret. rewrite slice_prefix, slice_suffix, slice_middle by lia.
    replace (end_ + 1 - start) with (end_ - start + 1) by lia.
    reflexivity.
Qed.

(** The three parts [reorderSubArray] cuts the array into. *)
Lemma valid_range_parts {A : Type} (array : list A) (start end_ : Z) :
  0 <= start -> start <= end_ -> end_ < len array ->
  array = firstn (Z.to_nat start) array
            ++ firstn (Z.to_nat (end_ - start + 1)) (skipn (Z.to_nat start) array)
            ++ skipn (Z.to_nat (end_ + 1)) array.
Proof.
  intros H1 H2 H3.
  replace (Z.to_nat (end_ + 1))
    with (Z.to_nat start + Z.to_nat (end_ - start + 1))%nat by lia.
  apply split_three.
Qed.

(** C8.  On a valid range, 0 <= start <= end < length, [reorderSubArray]
    returns the prefix before [start] unchanged, then the transform applied
    to exactly the slice [start..end], then the suffix after [end]
    unchanged, and writes nothing to the console.  The three parts are the
    decomposition of the array, the slice holds [end - start + 1] elements,
    and a transform that agrees with [reOrderLogic] on that slice gives the
    same result: nothing but the slice is passed to it. *)
Theorem reorderSubArray_valid_range {A : Type} (array : list A) (start end_ : Z)
    (reOrderLogic : list A -> list A) :
  0 <= start -> start <= end_ -> end_ < len array ->
  let before := firstn (Z.to_nat start) array in
  let target := firstn (Z.to_nat (end_ - start + 1)) (skipn (Z.to_nat start) array) in
  let after := skipn (Z.to_nat (end_ + 1)) array in
  array = before ++ target ++ after
  /\ len before = start
  /\ len target = end_ - start + 1
  /\ reorderSubArray array start end_ reOrderLogic
     = (before ++ reOrderLogic target ++ after, [])
  /\ (forall g : list A -> list A,
        g target = reOrderLogic target ->
        reorderSubArray array start end_ g
        = reorderSubArray array start end_ reOrderLogic).
Proof.
  intros H1 H2 H3 before target after. subst before target after.
  assert (Hlen : (Z.to_nat end_ < length array)%nat) by (unfold len in H3; lia).
  repeat split.
  - apply valid_range_parts; assumption.
  - unfold len. rewrite length_firstn. lia.
  - unfold len. rewrite length_firstn, length_skipn. lia.
  - apply reorderSubArray_eq; assumption.
  - intros g Hg. rewrite !reorderSubArray_eq by assumption. rewrite Hg. reflexivity.
Qed.

Lemma reorderSubArray_valid_range_witness :
  0 <= 1 /\ 1 <= 3 /\ 3 < len [10; 20; 30; 40; 50]
  /\ reorderSubArray [10; 20; 30; 40; 50] 1 3 (@rev Z)
     = ([10] ++ rev [20; 30; 40] ++ [50], []).
Proof.
  assert (H1 : 0 <= 1) by lia.
  assert (H2 : 1 <= 3) by lia.
  assert (H3 : 3 < len [10; 20; 30; 40; 50]) by (vm_compute; reflexivity).
  repeat (split; [assumption|]).
  exact (proj1 (proj2 (proj2 (proj2
    (reorderSubArray_valid_range [10; 20; 30; 40; 50] 1 3 (@rev Z) H1 H2 H3))))).
Defined.

(** C9.  On a range that violates 0 <= start <= end < length,
    [reorderSubArray] returns the array it was given, whatever the
    transform, and writes one warning line to the console.  (The function
    is total: it has no failing path.) *)
Theorem reorderSubArray_invalid_range {A : Type} (array : list A) (start end_ : Z)
    (reOrderLogic : list A -> list A) :
  start < 0 \/ end_ >= len array \/ start > end_ ->
  reorderSubArray array start end_ reOrderLogic
  = (array, [warningLine start end_]).
Proof.
  intros H. apply invalidRange_true in H.
  unfold reorderSubArray. rewrite H. reflexivity.
Qed.

Lemma reorderSubArray_invalid_range_witness :
  (3 < 0 \/ 1 >= len [10; 20; 30; 40; 50] \/ 3 > 1)
  /\ reorderSubArray [10; 20; 30; 40; 50] 3 1 (@rev Z)
     = ([10; 20; 30; 40; 50],
        ["start:3 or end:1 invalid. Returning original array."%string]).
Proof.
  split; [right; right; lia|].
  apply (reorderSubArray_invalid_range [10; 20; 30; 40; 50] 3 1 (@rev Z)).
  right; right; lia.
Defined.

(* ----------------------------------------------------------------- *)
(** ** The classifier *)

Lemma categoriseTeam_cases (c : DogStatusCount) :
  categoriseTeam c =
  if (AVOID c =? 0)%nat then DOG_LOVERS
  else if (HAVE c =? 0)%nat then DOG_HATERS
  else MIXED.
Proof.
  unfold categoriseTeam.
  destruct (AVOID c) as [|a]; [reflexivity|].
  destruct (HAVE c) as [|h]; reflexivity.
Qed.

Lemma categoriseTeam_not_NO_TEAM (c : DogStatusCount) : categoriseTeam c <> NO_TEAM.
Proof.
  rewrite categoriseTeam_cases.
  destruct (AVOID c =? 0)%nat; [discriminate|].
  destruct (HAVE c =? 0)%nat; discriminate.
Qed.

(** The summaries the scan has pushed never carry [NO_TEAM]. *)
Lemma classifyStep_categories (st : ClassifierState) (person : Person) :
  Forall (fun s => category s <> NO_TEAM) (teamSummaries st) ->
  Forall (fun s => category s <> NO_TEAM) (teamSummaries (classifyStep st person)).
Proof.
  intros H. unfold classifyStep.
  destruct (negb (truthy (teamId (currSummary st)))); simpl;
    match goal with |- context [if ?b then _ else _] => destruct b end; simpl;
    try assumption;
    unfold closeRun; apply Forall_app; split; simpl; try assumption;
    repeat constructor; simpl; apply categoriseTeam_not_NO_TEAM.
Qed.

Lemma classify_categories (people : list Person) (st : ClassifierState) :
  Forall (fun s => category s <> NO_TEAM) (teamSummaries st) ->
  Forall (fun s => category s <> NO_TEAM)
    (closeRun (fold_left classifyStep people st)).
Proof.
  revert st. induction people as [|p t IH]; intros st H; simpl.
  - unfold closeRun. apply Forall_app. split; [assumption|].
    repeat constructor. simpl. apply categoriseTeam_not_NO_TEAM.
  - apply IH, classifyStep_categories, H.
Qed.

(** C6.  The category of a run is decided by its counters alone:
    [DOG_LOVERS] when nobody avoids dogs, otherwise [DOG_HATERS] when
    nobody has a dog, otherwise [MIXED]; [NO_TEAM] is never the result,
    and no summary returned by [sortTeamsByCategory] carries it. *)
Theorem categoriseTeam_rule :
  (forall c : DogStatusCount,
      categoriseTeam c =
      (if (AVOID c =? 0)%nat then DOG_LOVERS
       else if (HAVE c =? 0)%nat then DOG_HATERS
       else MIXED)
      /\ categoriseTeam c <> NO_TEAM)
  /\ (forall (people : list Person) (s : TeamSummary),
         In s (sortTeamsByCategory people) -> category s <> NO_TEAM).
Proof.
  split.
  - intros c. split; [apply categoriseTeam_cases | apply categoriseTeam_not_NO_TEAM].
  - intros people s Hin. unfold sortTeamsByCategory in Hin.
    apply (Permutation_in _ (sort_perm _ _)) in Hin.
    pose proof (classify_categories people classifierInit (Forall_nil _)) as H.
    rewrite Forall_forall in H. apply H, Hin.
Qed.

(* ----------------------------------------------------------------- *)
(** ** The interleave transform *)

Lemma alternateLoop_acc {A : Type} (groupA groupB acc : list A) :
  alternateLoop groupA groupB acc =
  let '(r, restA, restB) := alternateLoop groupA groupB [] in
  (acc ++ r, restA, restB).
Proof.
  revert groupB acc. induction groupA as [|a A' IH]; intros groupB acc.
  - simpl. rewrite app_nil_r. reflexivity.
  - destruct groupB as [|b B'].
    + simpl. rewrite app_nil_r. reflexivity.
    + simpl. rewrite (IH B' (acc ++ [a; b])), (IH B' [a; b]).
      destruct (alternateLoop A' B' []) as [[r ra] rb].
      rewrite <- app_assoc. reflexivity.
Qed.

Lemma alternate_nil_l {A : Type} (groupB : list A) : alternate [] groupB = groupB.
Proof. reflexivity. Qed.

Lemma alternate_nil_r {A : Type} (groupA : list A) : alternate groupA [] = groupA.
Proof. destruct groupA; unfold alternate; simpl; rewrite ?app_nil_r; reflexivity. Qed.

Lemma alternate_cons {A : Type} (a b : A) (groupA groupB : list A) :
  alternate (a :: groupA) (b :: groupB) = a :: b :: alternate groupA groupB.
Proof.
  unfold alternate. simpl. rewrite alternateLoop_acc.
  destruct (alternateLoop groupA groupB []) as [[r ra] rb]. reflexivity.
Qed.

Lemma alternate_map {A B : Type} (f : A -> B) (groupA groupB : list A) :
  alternate (map f groupA) (map f groupB) = map f (alternate groupA groupB).
Proof.
  revert groupB. induction groupA as [|a A' IH]; intros [|b B'].
  - reflexivity.
  - reflexivity.
  - change (map f (@nil A)) with (@nil B). rewrite !alternate_nil_r. reflexivity.
  - change (map f (a :: A')) with (f a :: map f A').
    change (map f (b :: B')) with (f b :: map f B').
    rewrite !alternate_cons, IH. reflexivity.
Qed.

Lemma alternate_perm {A : Type} (groupA groupB : list A) :
  Permutation (alternate groupA groupB) (groupA ++ groupB).
Proof.
  revert groupB. induction groupA as [|a A' IH]; intros [|b B'].
  - apply perm_nil.
  - apply Permutation_refl.
  - rewrite alternate_nil_r, app_nil_r. apply Permutation_refl.
  - rewrite alternate_cons. simpl. apply perm_skip.
    eapply perm_trans; [apply perm_skip, IH|].
    apply (Permutation_middle A' B' b).
Qed.

(** The pairs of the alternating part and the tail that follows it. *)
Lemma alternate_nth {A : Type} (groupA groupB : list A) (i : nat) :
  (i < Nat.min (length groupA) (length groupB))%nat ->
  nth_error (alternate groupA groupB) (2 * i) = nth_error groupA i
  /\ nth_error (alternate groupA groupB) (2 * i + 1) = nth_error groupB i.
Proof.
  revert groupB i. induction groupA as [|a A' IH]; intros [|b B'] i Hi;
    simpl in Hi; try lia.
  rewrite alternate_cons. destruct i as [|i].
  - split; reflexivity.
  - replace (2 * S i)%nat with (S (S (2 * i))) by lia.
    replace (S (S (2 * i)) + 1)%nat with (S (S (2 * i + 1))) by lia.
    simpl nth_error. apply IH. lia.
Qed.

Lemma alternate_tail {A : Type} (groupA groupB : list A) :
  let m := Nat.min (length groupA) (length groupB) in
  skipn (2 * m) (alternate groupA groupB) = skipn m groupA ++ skipn m groupB.
Proof.
  revert groupB. induction groupA as [|a A' IH]; intros [|b B']; simpl.
  - reflexivity.
  - reflexivity.
  - rewrite alternate_nil_r, app_nil_r. reflexivity.
  - rewrite alternate_cons.
    replace (Nat.min (length A') (length B') + S (Nat.min (length A') (length B') + 0))%nat
      with (S (2 * Nat.min (length A') (length B'))) by lia.
    simpl skipn. apply IH.
Qed.

Lemma skipn_min_nil {A : Type} (groupA groupB : list A) :
  let m := Nat.min (length groupA) (length groupB) in
  skipn m groupA = [] \/ skipn m groupB = [].
Proof.
  simpl. destruct (Nat.le_ge_cases (length groupA) (length groupB)) as [H|H].
  - left. apply skipn_all2. lia.
  - right. apply skipn_all2. lia.
Qed.

(** The labels of the result only depend on the sizes of the groups. *)
Lemma alternateTagged_fst {A : Type} (groupA groupB : list A) :
  map fst (alternateTagged groupA groupB)
  = alternate (repeat GroupA (length groupA)) (repeat GroupB (length groupB)).
Proof.
  unfold alternateTagged. rewrite <- alternate_map. f_equal.
  - induction groupA; simpl; congruence.
  - induction groupB; simpl; congruence.
Qed.

Lemma alternateTagged_snd {A : Type} (groupA groupB : list A) :
  map snd (alternateTagged groupA groupB) = alternate groupA groupB.
Proof.
  unfold alternateTagged. rewrite <- alternate_map. f_equal.
  - induction groupA; simpl; congruence.
  - induction groupB; simpl; congruence.
Qed.

Lemma leadingRun_repeat_same (g : Group) (n : nat) :
  leadingRun g (repeat g n) = n.
Proof. induction n; simpl; [reflexivity|]. destruct g; simpl; congruence. Qed.

Lemma longestRun_repeat (g : Group) (n : nat) : longestRun (repeat g n) = n.
Proof.
  induction n as [|n IH]; [reflexivity|].
  cbn [repeat longestRun]. rewrite leadingRun_repeat_same, IH. lia.
Qed.

(** The longest run of the labels, for all sizes (one group may be
    empty). *)
Lemma longestRun_alternate (a b : nat) :
  longestRun (alternate (repeat GroupA a) (repeat GroupB b)) =
  match a, b with
  | O, _ => b
  | _, O => a
  | _, _ => if (b <? a)%nat then (a - b)%nat else (b - a + 1)%nat
  end.
Proof.
  revert b. induction a as [|a IH]; intros b.
  - cbn [repeat]. rewrite alternate_nil_l. apply longestRun_repeat.
  - destruct b as [|b].
    + cbn [repeat]. rewrite alternate_nil_r. apply (longestRun_repeat GroupA (S a)).
    + cbn [repeat]. rewrite alternate_cons.
      cbn [longestRun leadingRun Group_eqb].
      rewrite IH. destruct a as [|a].
      * cbn [repeat]. rewrite alternate_nil_l, leadingRun_repeat_same.
        replace (S b <? 1)%nat with false by (symmetry; apply Nat.ltb_ge; lia).
        lia.
      * destruct b as [|b].
        -- cbn [repeat]. rewrite alternate_nil_r. cbn [leadingRun Group_eqb].
           replace (1 <? S (S a))%nat with true by (symmetry; apply Nat.ltb_lt; lia).
           lia.
        -- cbn [repeat]. rewrite alternate_cons. cbn [leadingRun Group_eqb].
           destruct (Nat.ltb_spec (S b) (S a));
             destruct (Nat.ltb_spec (S (S b)) (S (S a))); lia.
Qed.

(** What [findIndex] returns when it is not [-1]: the index of the first
    item that satisfies the predicate. *)
Lemma findIndexFrom_found {A : Type} (pred : A -> Z -> list A -> bool)
    (arr rest : list A) (index : Z) :
  findIndexFrom pred arr rest index <> -1 -> 0 <= index ->
  exists n item,
    findIndexFrom pred arr rest index = index + Z.of_nat n
    /\ nth_error rest n = Some item
    /\ pred item (index + Z.of_nat n) arr = true
    /\ (forall m other, (m < n)%nat -> nth_error rest m = Some other ->
          pred other (index + Z.of_nat m) arr = false).
Proof.
  revert index. induction rest as [|item rest' IH]; intros index Hk Hi.
  - simpl in Hk. congruence.
  - simpl in *. destruct (pred item index arr) eqn:E.
    + exists 0%nat, item. rewrite Z.add_0_r. repeat split; auto.
      intros m other Hm. lia.
    + destruct (IH (index + 1) Hk ltac:(lia)) as (n & it & H1 & H2 & H3 & H4).
      exists (S n), it.
      replace (index + Z.of_nat (S n)) with (index + 1 + Z.of_nat n) by lia.
      repeat split; auto.
      intros [|m] other Hm Hnth; simpl in Hnth.
      * injection Hnth as <-. rewrite Z.add_0_r. exact E.
      * replace (index + Z.of_nat (S m)) with (index + 1 + Z.of_nat m) by lia.
        apply (H4 m); auto. lia.
Qed.

(** The split [insertPeopleWithDogLogic] makes: both groups are not
    empty and the first one is homogeneous. *)
Lemma splitPoint_spec (subArray : list Person) :
  findIndex differsFromFirst subArray <> -1 ->
  let splitPoint := Z.to_nat (findIndex differsFromFirst subArray) in
  findIndex differsFromFirst subArray = Z.of_nat splitPoint
  /\ (1 <= splitPoint < length subArray)%nat
  /\ (forall p first, hd_error subArray = Some first ->
        In p (firstn splitPoint subArray) ->
        Person.dogStatus p = Person.dogStatus first).
Proof.
  intros Hk. unfold findIndex in *.
  destruct (findIndexFrom_found differsFromFirst subArray subArray 0 Hk ltac:(lia))
    as (n & item & H1 & H2 & H3 & H4).
  rewrite H1 in *. simpl. rewrite Nat2Z.id.
  assert (Hn : (1 <= n)%nat).
  { destruct n; [|lia]. unfold differsFromFirst in H3. simpl in H3. discriminate. }
  split; [reflexivity|]. split.
  - split; [exact Hn|]. apply nth_error_Some. congruence.
  - intros p first Hfirst Hin.
    apply In_nth_error in Hin. destruct Hin as [m Hm].
    assert (Hlt : (m < n)%nat).
    { assert (Hs : nth_error (firstn n subArray) m <> None) by congruence.
      apply nth_error_Some in Hs. rewrite length_firstn in Hs. lia. }
    rewrite nth_error_firstn in Hm.
    destruct (Nat.ltb_spec m n); [|lia].
    destruct m as [|m].
    + destruct subArray; simpl in *; congruence.
    + specialize (H4 (S m) p Hlt Hm). unfold differsFromFirst in H4.
      destruct subArray as [|x t]; [discriminate|].
      simpl in Hfirst. injection Hfirst as ->.
      replace (0 + Z.of_nat (S m) >? 0) with true in H4
        by (symmetry; apply Z.gtb_lt; lia).
      simpl in H4. apply negb_false_iff in H4.
      destruct (DogStatus_eqb_spec (Person.dogStatus p) (Person.dogStatus first));
        congruence.
Qed.

(** [insertPeopleWithDogLogic] on a slice it splits. *)
Lemma insertPeopleWithDogLogic_split (subArray : list Person) :
  len subArray > 3 ->
  findIndex differsFromFirst subArray <> -1 ->
  let splitPoint := Z.to_nat (findIndex differsFromFirst subArray) in
  insertPeopleWithDogLogic subArray
  = alternate (firstn splitPoint subArray) (skipn splitPoint subArray).
Proof.
  intros Hlen Hk. destruct (splitPoint_spec subArray Hk) as (Hsp & Hb & _).
  simpl. unfold insertPeopleWithDogLogic.
  destruct (len subArray <=? 3) eqn:E; [apply Z.leb_le in E; lia|].
  destruct (findIndex differsFromFirst subArray =? -1) eqn:E2;
    [apply Z.eqb_eq in E2; contradiction|].
  simpl negb. cbv iota.
  rewrite slice_prefix, slice_suffix by (unfold len; lia).
  reflexivity.
Qed.

(** C7 (amended).  A slice of more than 3 people that splits at
    [splitPoint] into [groupA] (the leading people with the dog status of
    the first one, [a] of them) and [groupB] (the rest, [b] of them) is
    turned into: one of [groupA], one of [groupB], and so on until the
    smaller group is exhausted, then what is left of the larger group in
    its order.  The longest block of consecutive elements of the result
    that come from one group has [a - b] elements when [a > b] and
    [b - a + 1] elements otherwise. *)
Theorem interleave_alternates (subArray : list Person) :
  len subArray > 3 ->
  findIndex differsFromFirst subArray <> -1 ->
  let splitPoint := Z.to_nat (findIndex differsFromFirst subArray) in
  let groupA := firstn splitPoint subArray in
  let groupB := skipn splitPoint subArray in
  let a := length groupA in
  let b := length groupB in
  let m := Nat.min a b in
  let result := insertPeopleWithDogLogic subArray in
  subArray = groupA ++ groupB
  /\ (1 <= a)%nat /\ (1 <= b)%nat
  /\ (forall p first, hd_error subArray = Some first -> In p groupA ->
        Person.dogStatus p = Person.dogStatus first)
  /\ (forall i, (i < m)%nat ->
        nth_error result (2 * i) = nth_error groupA i
        /\ nth_error result (2 * i + 1) = nth_error groupB i)
  /\ skipn (2 * m) result = skipn m groupA ++ skipn m groupB
  /\ (skipn m groupA = [] \/ skipn m groupB = [])
  /\ map snd (alternateTagged groupA groupB) = result
  /\ longestRun (map fst (alternateTagged groupA groupB))
     = (if (b <? a)%nat then a - b else b - a + 1)%nat.
Proof.
  intros Hlen Hk splitPoint groupA groupB a b m result.
  destruct (splitPoint_spec subArray Hk) as (Hsp & Hb & Hhom).
  fold splitPoint in Hsp, Hb, Hhom.
  assert (Hres : result = alternate groupA groupB)
    by (apply insertPeopleWithDogLogic_split; assumption).
  assert (Ha : a = splitPoint).
  { unfold a, groupA. rewrite length_firstn. lia. }
  assert (Hbl : b = (length subArray - splitPoint)%nat).
  { unfold b, groupB. apply length_skipn. }
  split; [symmetry; apply firstn_skipn|].
  split; [lia|]. split; [lia|].
  split; [exact Hhom|].
  split; [intros i Hi; rewrite Hres; apply alternate_nth; exact Hi|].
  split; [rewrite Hres; apply alternate_tail|].
  split; [apply skipn_min_nil|].
  split; [rewrite Hres; apply alternateTagged_snd|].
  rewrite alternateTagged_fst, longestRun_alternate.
  fold a b. destruct a as [|a']; [lia|]. destruct b as [|b']; [lia|]. reflexivity.
Qed.

Lemma interleave_alternates_witness :
  len twoLikeTwoHave > 3
  /\ findIndex differsFromFirst twoLikeTwoHave <> -1
  /\ longestRun (map fst (alternateTagged (firstn 2 twoLikeTwoHave)
                                           (skipn 2 twoLikeTwoHave))) = 1%nat.
Proof.
  assert (H1 : len twoLikeTwoHave > 3) by (vm_compute; reflexivity).
  assert (H2 : findIndex differsFromFirst twoLikeTwoHave <> -1)
    by (vm_compute; discriminate).
  repeat (split; [assumption|]).
  exact (proj2 (proj2 (proj2 (proj2 (proj2 (proj2 (proj2 (proj2
    (interleave_alternates twoLikeTwoHave H1 H2))))))))).
Defined.

(** C7 as the specification words it fails on two people who like dogs
    followed by two who have one: the result alternates throughout, its
    longest block from one group has 1 element, and |a - b| = 0. *)
Lemma interleave_run_is_not_abs_difference :
  len twoLikeTwoHave > 3
  /\ findIndex differsFromFirst twoLikeTwoHave = 2
  /\ map Person.id (insertPeopleWithDogLogic twoLikeTwoHave)
     = ["p1"; "p3"; "p2"; "p4"]%string
  /\ longestRun (map fst (alternateTagged (firstn 2 twoLikeTwoHave)
                                           (skipn 2 twoLikeTwoHave)))
     <> Z.abs_nat (len (firstn 2 twoLikeTwoHave) - len (skipn 2 twoLikeTwoHave)).
Proof.
  repeat split; try (vm_compute; congruence).
Qed.

Lemma insertPeopleWithDogLogic_perm (subArray : list Person) :
  Permutation (insertPeopleWithDogLogic subArray) subArray.
Proof.
  destruct (Z_gt_le_dec (len subArray) 3) as [Hlen|Hlen].
  - destruct (Z.eq_dec (findIndex differsFromFirst subArray) (-1)) as [Hk|Hk].
    + unfold insertPeopleWithDogLogic. rewrite Hk. simpl.
      destruct (len subArray <=? 3); apply Permutation_refl.
    + rewrite insertPeopleWithDogLogic_split by assumption.
      eapply perm_trans; [apply alternate_perm|].
      rewrite firstn_skipn. apply Permutation_refl.
  - unfold insertPeopleWithDogLogic.
    destruct (len subArray <=? 3) eqn:E; [apply Permutation_refl|].
    apply Z.leb_gt in E. lia.
Qed.

(* ----------------------------------------------------------------- *)
(** ** The interleaving pass *)

Lemma map_constant {A B : Type} (f : A -> B) (c : B) (l : list A) :
  Forall (fun y => y = c) (map f l) -> map f l = repeat c (length l).
Proof.
  induction l as [|x t IH]; simpl; intros H; [reflexivity|].
  inversion H; subst. f_equal; auto.
Qed.

(** Reordering people who all have the same team leaves the sequence of
    team ids as it is. *)
Lemma perm_same_team (c : option string) (l l' : list Person) :
  Permutation l' l ->
  Forall (fun y => y = c) (map teamIdOf l) ->
  map teamIdOf l' = map teamIdOf l.
Proof.
  intros Hp Hc.
  assert (Hc' : Forall (fun y => y = c) (map teamIdOf l')).
  { eapply Permutation_Forall; [|exact Hc].
    apply Permutation_map, Permutation_sym, Hp. }
  rewrite (map_constant _ _ _ Hc), (map_constant _ _ _ Hc').
  f_equal. apply Permutation_length, Hp.
Qed.

Lemma Forall_prefix {A : Type} (P : A -> Prop) (n : nat) (l : list A) :
  Forall P l -> Forall P (firstn n l).
Proof.
  intros H. rewrite <- (firstn_skipn n l) in H. apply Forall_app in H. tauto.
Qed.

Lemma firstn_skipn_app {A : Type} (s : nat) (l1 l2 : list A) :
  (s <= length l1)%nat ->
  firstn (length l1 - s) (skipn s (l1 ++ l2)) = skipn s l1.
Proof.
  intros H. rewrite skipn_app.
  replace (s - length l1)%nat with 0%nat by lia. simpl.
  rewrite firstn_app, length_skipn.
  replace (length l1 - s - (length l1 - s))%nat with 0%nat by lia.
  rewrite firstn_O, app_nil_r. apply firstn_all2. rewrite length_skipn. lia.
Qed.

(** A flush on a valid range: no warning, a permutation, and the same
    sequence of team ids when the people of the range share their team. *)
Lemma flush_valid (u : list Person) (s e : Z) :
  0 <= s -> s <= e -> e < len u ->
  exists u',
    reorderSubArray u s e insertPeopleWithDogLogic = (u', [])
    /\ Permutation u' u
    /\ (forall c,
          Forall (fun y => y = c)
            (firstn (Z.to_nat (e - s + 1)) (skipn (Z.to_nat s) (map teamIdOf u))) ->
          map teamIdOf u' = map teamIdOf u).
Proof.
  intros H1 H2 H3.
  pose proof (valid_range_parts u s e H1 H2 H3) as Hdec.
  pose proof (reorderSubArray_eq u s e insertPeopleWithDogLogic H1 H2 H3) as Heq.
  eexists. split; [exact Heq|].
  set (before := firstn (Z.to_nat s) u) in *.
  set (target := firstn (Z.to_nat (e - s + 1)) (skipn (Z.to_nat s) u)) in *.
  set (after := skipn (Z.to_nat (e + 1)) u) in *.
  split.
  - apply (Permutation_trans (l' := before ++ target ++ after));
      [|rewrite <- Hdec; apply Permutation_refl].
    apply Permutation_app_head, Permutation_app_tail, insertPeopleWithDogLogic_perm.
  - intros c Hc. rewrite skipn_map, firstn_map in Hc. fold target in Hc.
    transitivity (map teamIdOf (before ++ target ++ after));
      [|rewrite <- Hdec; reflexivity].
    rewrite !map_app. do 2 f_equal.
    apply (perm_same_team c); [apply insertPeopleWithDogLogic_perm | exact Hc].
Qed.

Lemma looseEq_true (a b : option string) : looseEq a b = true <-> a = b.
Proof.
  destruct a as [x|], b as [y|]; simpl; split; intros H;
    try discriminate; try reflexivity.
  - apply String.eqb_eq in H. congruence.
  - injection H as ->. apply String.eqb_refl.
Qed.

Lemma truthy_valid (p : Person) :
  validId p -> truthy (teamIdOf p) = false -> teamIdOf p = None.
Proof.
  unfold validId. intros Hv Ht.
  destruct (teamIdOf p) as [i|]; [|reflexivity].
  simpl in Ht. apply negb_false_iff, String.eqb_eq in Ht.
  exfalso. apply (Hv i); auto.
Qed.

Lemma StronglySorted_app_mid {A : Type} (R : A -> A -> Prop) (l1 l2 : list A) (x : A) :
  StronglySorted R (l1 ++ x :: l2) -> forall q, In q l1 -> R q x.
Proof.
  induction l1 as [|a t IH]; simpl; intros Hs q Hq; [contradiction|].
  inversion Hs as [|? ? Ht Ha]; subst. destruct Hq as [<-|Hq].
  - rewrite Forall_forall in Ha. apply Ha, in_or_app. right. left. reflexivity.
  - apply IH; assumption.
Qed.

Section InterleavingPass.
Variable sortedPeople : list Person.

(** The refresh of [currTeam] that opens an iteration. *)
Lemma refresh_inv pre p rest st :
  sortedPeople = pre ++ p :: rest ->
  scanInv sortedPeople pre st -> scanInv sortedPeople pre (refreshCurrTeam st p).
Proof.
  intros Hsplit (Hperm & Hstart & Hkeys). unfold refreshCurrTeam.
  destruct (truthy (currTeam st)) eqn:Et; simpl;
    [exact (conj Hperm (conj Hstart Hkeys))|].
  split; [exact Hperm|]. split; [exact Hstart|].
  intros Hv Hl. destruct (Hkeys Hv Hl) as [Hk Hrun]. split; [exact Hk|].
  simpl. intros Hflag. specialize (Hrun Hflag). specialize (Hstart Hflag).
  (* the open run is not empty: take its first person *)
  assert (Hlt : (Z.to_nat (startPointer st) < length pre)%nat)
    by (unfold len in Hstart; lia).
  destruct (nth_error pre (Z.to_nat (startPointer st))) as [q|] eqn:Eq;
    [|apply nth_error_None in Eq; lia].
  assert (Hq : teamIdOf q = currTeam st).
  { rewrite Forall_forall in Hrun. apply Hrun.
    apply (nth_error_In _ 0). rewrite nth_error_skipn, Nat.add_0_r.
    apply map_nth_error, Eq. }
  assert (Hin : In q pre) by (eapply nth_error_In; exact Eq).
  assert (Hnone : teamIdOf q = None).
  { apply truthy_valid; [|rewrite Hq; exact Et].
    rewrite Forall_forall in Hv. apply Hv. rewrite Hsplit.
    apply in_or_app. left. exact Hin. }
  assert (Hp : teamIdOf p = None).
  { unfold teamlessLast in Hl. rewrite Hsplit in Hl.
    apply (StronglySorted_app_mid _ _ _ _ Hl q Hin Hnone). }
  rewrite Hp, <- Hnone, Hq. exact Hrun.
Qed.

(** The flush in the middle of the scan. *)
Lemma flush_inv pre p rest st :
  sortedPeople = pre ++ p :: rest ->
  scanInv sortedPeople pre st ->
  startSearchFlag st = true ->
  exists u',
    reorderSubArray (updatedPeople st) (startPointer st) (len pre - 1)
      insertPeopleWithDogLogic = (u', [])
    /\ scanInv sortedPeople pre
         {| currTeam := currTeam st;
            startPointer := startPointer st;
            startSearchFlag := false;
            updatedPeople := u' |}.
Proof.
  intros Hsplit (Hperm & Hstart & Hkeys) Hflag.
  specialize (Hstart Hflag).
  assert (Hlen : len (updatedPeople st) = len pre + 1 + len rest).
  { unfold len. rewrite (Permutation_length Hperm), Hsplit, length_app. simpl. lia. }
  pose proof (len_nonneg rest) as Hr.
  destruct (flush_valid (updatedPeople st) (startPointer st) (len pre - 1))
    as (u' & Heq & Hp' & Hk'); try lia.
  exists u'. split; [exact Heq|].
  split; [simpl; eapply perm_trans; eassumption|].
  split; [simpl; discriminate|].
  intros Hv Hl. destruct (Hkeys Hv Hl) as [Hk Hrun]. simpl.
  split; [|discriminate].
  rewrite <- Hk. apply (Hk' (currTeam st)).
  rewrite Hk, Hsplit, map_app.
  replace (Z.to_nat (len pre - 1 - startPointer st + 1))
    with (length (map teamIdOf pre) - Z.to_nat (startPointer st))%nat
    by (rewrite length_map; unfold len in *; lia).
  rewrite firstn_skipn_app by (rewrite length_map; unfold len in *; lia).
  apply Hrun, Hflag.
Qed.

(** A run opens at the person being visited. *)
Lemma open_run_inv pre p st :
  scanInv sortedPeople pre st ->
  scanInv sortedPeople (pre ++ [p])
    {| currTeam := teamIdOf p;
       startPointer := len pre;
       startSearchFlag := true;
       updatedPeople := updatedPeople st |}.
Proof.
  intros (Hperm & _ & Hkeys). split; [exact Hperm|]. simpl.
  pose proof (len_nonneg pre) as Hpre.
  split; [intros _; rewrite len_snoc; lia|].
  intros Hv Hl. destruct (Hkeys Hv Hl) as [Hk _]. split; [exact Hk|].
  intros _. unfold len. rewrite Nat2Z.id, map_app, skipn_app.
  rewrite skipn_all2 by (rewrite length_map; lia).
  rewrite length_map, Nat.sub_diag. simpl. repeat constructor.
Qed.

(** No run is open and none opens. *)
Lemma idle_inv pre p st :
  startSearchFlag st = false ->
  scanInv sortedPeople pre st -> scanInv sortedPeople (pre ++ [p]) st.
Proof.
  intros Hflag (Hperm & _ & Hkeys). split; [exact Hperm|].
  split; [rewrite Hflag; discriminate|].
  intros Hv Hl. destruct (Hkeys Hv Hl) as [Hk _]. split; [exact Hk|].
  rewrite Hflag. discriminate.
Qed.

(** The open run takes the person being visited. *)
Lemma extend_run_inv pre p st :
  startSearchFlag st = true -> teamIdOf p = currTeam st ->
  scanInv sortedPeople pre st -> scanInv sortedPeople (pre ++ [p]) st.
Proof.
  intros Hflag Hteam (Hperm & Hstart & Hkeys). specialize (Hstart Hflag).
  split; [exact Hperm|].
  split; [intros _; rewrite len_snoc; lia|].
  intros Hv Hl. destruct (Hkeys Hv Hl) as [Hk Hrun]. split; [exact Hk|].
  intros _. rewrite map_app, skipn_app. apply Forall_app. split.
  - apply Hrun, Hflag.
  - replace (Z.to_nat (startPointer st) - length (map teamIdOf pre))%nat with 0%nat
      by (rewrite length_map; unfold len in Hstart; lia).
    simpl. repeat constructor. exact Hteam.
Qed.

(** One iteration of the scan keeps the invariant and writes nothing. *)
Lemma scanStep_inv pre p rest st :
  sortedPeople = pre ++ p :: rest ->
  scanInv sortedPeople pre st ->
  exists st',
    scanStep st p (len pre) = (st', [])
    /\ scanInv sortedPeople (pre ++ [p]) st'.
Proof.
  intros Hsplit Hinv.
  pose proof (refresh_inv pre p rest st Hsplit Hinv) as H1.
  unfold scanStep. cbv zeta.
  set (st1 := refreshCurrTeam st p) in *. clearbody st1.
  destruct (closesRun st1 p) eqn:Ec.
  - assert (Hflag : startSearchFlag st1 = true)
      by (unfold closesRun in Ec; apply andb_true_iff in Ec; tauto).
    destruct (flush_inv pre p rest st1 Hsplit H1 Hflag) as (u' & Heq & H2).
    rewrite Heq. simpl.
    destruct (DogStatus_eqb (Person.dogStatus p) Avoid); simpl.
    + eexists. split; [reflexivity|]. apply idle_inv; [reflexivity|exact H2].
    + eexists. split; [reflexivity|]. apply (open_run_inv pre p _ H2).
  - simpl. destruct (startSearchFlag st1) eqn:Ef; simpl.
    + eexists. split; [reflexivity|].
      apply extend_run_inv; [exact Ef| |exact H1].
      unfold closesRun in Ec. rewrite Ef in Ec. simpl in Ec.
      apply orb_false_iff in Ec. destruct Ec as [Ec _].
      apply negb_false_iff, looseEq_true in Ec. exact Ec.
    + destruct (DogStatus_eqb (Person.dogStatus p) Avoid); simpl.
      * eexists. split; [reflexivity|]. apply idle_inv; assumption.
      * eexists. split; [reflexivity|]. apply (open_run_inv pre p _ H1).
Qed.

(** The scan over a stretch [mid] of the array. *)
Lemma scan_inv mid : forall pre rest st,
  sortedPeople = pre ++ mid ++ rest ->
  scanInv sortedPeople pre st ->
  exists st',
    forEachIndexed scanStep mid (len pre) st = (st', [])
    /\ scanInv sortedPeople (pre ++ mid) st'.
Proof.
  induction mid as [|p mid IH]; intros pre rest st Hsplit Hinv.
  - rewrite app_nil_r. exists st. split; [reflexivity|exact Hinv].
  - destruct (scanStep_inv pre p (mid ++ rest) st Hsplit Hinv) as (st1 & Heq & H1).
    destruct (IH (pre ++ [p]) rest st1) as (st' & Heq' & H').
    + rewrite <- app_assoc. exact Hsplit.
    + exact H1.
    + exists st'. rewrite <- app_assoc in H'. split; [|exact H'].
      simpl. rewrite Heq. simpl.
      rewrite <- (len_snoc pre p).
      rewrite Heq'. reflexivity.
Qed.

Lemma scan_prefix_inv pre rest :
  sortedPeople = pre ++ rest ->
  exists st,
    forEachIndexed scanStep pre 0 (scanInit sortedPeople) = (st, [])
    /\ scanInv sortedPeople pre st.
Proof.
  intros Hsplit.
  apply (scan_inv pre [] rest (scanInit sortedPeople) Hsplit).
  split; [apply Permutation_refl|]. split; [discriminate|].
  intros _ _. split; [reflexivity|discriminate].
Qed.

(** The interleaving pass writes nothing to the console, rearranges
    the people, and keeps the sequence of team ids when it is given
    valid team ids with the teamless people last. *)
Lemma interleavingPass_spec :
  exists out,
    interleavingPass sortedPeople = (out, [])
    /\ Permutation out sortedPeople
    /\ (Forall validId sortedPeople -> teamlessLast sortedPeople ->
        map teamIdOf out = map teamIdOf sortedPeople).
Proof.
  destruct (scan_prefix_inv sortedPeople []) as (st & Heq & Hinv).
  - symmetry. apply app_nil_r.
  - unfold interleavingPass. rewrite Heq. simpl.
    destruct Hinv as (Hperm & Hstart & Hkeys).
    destruct (startSearchFlag st) eqn:Ef.
    + specialize (Hstart eq_refl).
      assert (Hlen : len (updatedPeople st) = len sortedPeople)
        by (unfold len; rewrite (Permutation_length Hperm); reflexivity).
      destruct (flush_valid (updatedPeople st) (startPointer st)
                  (len (updatedPeople st) - 1))
        as (u' & Heq' & Hp' & Hk'); try lia.
      exists u'. rewrite Heq'. split; [reflexivity|].
      split; [eapply perm_trans; eassumption|].
      intros Hv Hl. destruct (Hkeys Hv Hl) as [Hk Hrun].
      rewrite <- Hk. apply (Hk' (currTeam st)).
      rewrite Hk.
      apply Forall_prefix. (* the run reaches the end of the array *)
      apply Hrun. reflexivity.
    + exists (updatedPeople st). split; [reflexivity|]. split; [exact Hperm|].
      intros Hv Hl. apply (Hkeys Hv Hl).
Qed.
End InterleavingPass.

(* ----------------------------------------------------------------- *)
(** ** [calculateDeskLayout]: the people and the console *)

Lemma rankTeams_perm (grouped : list Person) : Permutation (rankTeams grouped) grouped.
Proof. apply sort_perm. Qed.

Lemma groupByTeam_perm (people : list Person) : Permutation (groupByTeam people) people.
Proof. apply sort_perm. Qed.

(** C1.  The layout is a rearrangement of the people it is given: the
    same people with the same multiplicities (so the same ids with the
    same multiplicities), and nobody when given nobody. *)
Theorem calculateDeskLayout_permutation :
  (forall people : list Person,
      Permutation (calculateDeskLayout people) people
      /\ Permutation (map Person.id (calculateDeskLayout people))
                     (map Person.id people)
      /\ length (calculateDeskLayout people) = length people)
  /\ calculateDeskLayout [] = [].
Proof.
  split; [|reflexivity].
  intros people.
  assert (H : Permutation (calculateDeskLayout people) people).
  { unfold calculateDeskLayout, calculateDeskLayout_run.
    destruct (interleavingPass_spec (rankTeams (groupByTeam people)))
      as (out & Heq & Hperm & _).
    rewrite Heq. simpl.
    eapply perm_trans; [exact Hperm|].
    eapply perm_trans; [apply rankTeams_perm | apply groupByTeam_perm]. }
  split; [exact H|]. split.
  - apply Permutation_map, H.
  - apply Permutation_length, H.
Qed.

(** C10.  Every call of [reorderSubArray] by the interleaving pass has a
    valid range.  In the scan: whenever the people before [person] have
    been visited and the test that closes a run succeeds at [person], the
    range [startPointer .. index - 1] is within the array passed.  After
    the scan: when a run is still open, so is the range
    [startPointer .. length - 1].  Hence the layout writes nothing to the
    console. *)
Theorem flush_ranges_valid (people : list Person) :
  let sortedPeople := rankTeams (groupByTeam people) in
  (forall pre person rest,
      sortedPeople = pre ++ person :: rest ->
      let index := len pre in
      let st := refreshCurrTeam
                  (fst (forEachIndexed scanStep pre 0 (scanInit sortedPeople)))
                  person in
      closesRun st person = true ->
      0 <= startPointer st
      /\ startPointer st <= index - 1
      /\ index - 1 < len (updatedPeople st)
      /\ invalidRange (updatedPeople st) (startPointer st) (index - 1) = false)
  /\ (let st := fst (forEachIndexed scanStep sortedPeople 0 (scanInit sortedPeople)) in
      startSearchFlag st = true ->
      0 <= startPointer st
      /\ startPointer st <= len (updatedPeople st) - 1
      /\ len (updatedPeople st) - 1 < len (updatedPeople st)
      /\ invalidRange (updatedPeople st) (startPointer st)
           (len (updatedPeople st) - 1) = false)
  /\ snd (calculateDeskLayout_run people) = [].
Proof.
  intros sortedPeople. split; [|split].
  - intros pre person rest Hsplit index st Hclose.
    destruct (scan_prefix_inv sortedPeople pre (person :: rest) Hsplit)
      as (st0 & Heq & Hinv).
    subst st. rewrite Heq in *. simpl fst in *.
    pose proof (refresh_inv sortedPeople pre person rest st0 Hsplit Hinv)
      as (Hperm & Hstart & _).
    set (st := refreshCurrTeam st0 person) in *.
    assert (Hflag : startSearchFlag st = true)
      by (unfold closesRun in Hclose; apply andb_true_iff in Hclose; tauto).
    specialize (Hstart Hflag).
    assert (Hlen : len (updatedPeople st) = len pre + 1 + len rest).
    { unfold len. rewrite (Permutation_length Hperm), Hsplit, length_app. simpl. lia. }
    pose proof (len_nonneg rest) as Hr.
    assert (H : 0 <= startPointer st /\ startPointer st <= index - 1
                /\ index - 1 < len (updatedPeople st)) by (unfold index; lia).
    destruct H as (H1 & H2 & H3). repeat (split; [assumption|]).
    apply invalidRange_false. auto.
  - intros st Hflag.
    destruct (scan_prefix_inv sortedPeople sortedPeople []) as (st0 & Heq & Hinv);
      [symmetry; apply app_nil_r|].
    subst st. rewrite Heq in *. simpl fst in *.
    destruct Hinv as (Hperm & Hstart & _). specialize (Hstart Hflag).
    assert (Hlen : len (updatedPeople st0) = len sortedPeople)
      by (unfold len; rewrite (Permutation_length Hperm); reflexivity).
    assert (H : 0 <= startPointer st0
                /\ startPointer st0 <= len (updatedPeople st0) - 1
                /\ len (updatedPeople st0) - 1 < len (updatedPeople st0)) by lia.
    destruct H as (H1 & H2 & H3). repeat (split; [assumption|]).
    apply invalidRange_false. auto.
  - unfold calculateDeskLayout_run. fold sortedPeople.
    destruct (interleavingPass_spec sortedPeople) as (out & Heq & _).
    rewrite Heq. reflexivity.
Qed.

(* ----------------------------------------------------------------- *)
(** ** The rank map *)

Lemma MapKey_eqb_spec (a b : MapKey) : reflect (a = b) (MapKey_eqb a b).
Proof.
  destruct a as [x| |], b as [y| |]; simpl; try (constructor; congruence).
  destruct (String.eqb_spec x y); constructor; congruence.
Qed.

Lemma Map_get_set (m : RankMap) (k k' : MapKey) (v : Z) :
  Map_get (Map_set m k v) k' = if MapKey_eqb k' k then Some v else Map_get m k'.
Proof.
  induction m as [|[k0 v0] t IH]; simpl.
  - reflexivity.
  - destruct (MapKey_eqb_spec k k0) as [->|Hne]; simpl.
    + destruct (MapKey_eqb k' k0); reflexivity.
    + rewrite IH. destruct (MapKey_eqb_spec k' k0) as [->|Hne'].
      * destruct (MapKey_eqb_spec k0 k); congruence.
      * reflexivity.
Qed.

(** An entry of the rank map comes from a summary: its key is the team
    id of the summary and its value the ordinal of its category. *)
Lemma buildTeamRankMap_get (summaries : list TeamSummary) (k : MapKey) (v : Z) :
  Map_get (buildTeamRankMap summaries) k = Some v ->
  exists s, In s summaries /\ keyOfSummary s = k /\ v = TeamCategory_ord (category s).
Proof.
  unfold buildTeamRankMap.
  assert (H : forall m,
    Map_get (fold_left
      (fun m tp => Map_set m (keyOfSummary tp) (TeamCategory_ord (category tp)))
      summaries m) k = Some v ->
    Map_get m k = Some v
    \/ exists s, In s summaries /\ keyOfSummary s = k
                 /\ v = TeamCategory_ord (category s)).
  { induction summaries as [|s t IH]; intros m Hget; simpl in *.
    - left. exact Hget.
    - destruct (IH _ Hget) as [Hm|(s' & Hin & Hk & Hv)].
      + rewrite Map_get_set in Hm.
        destruct (MapKey_eqb_spec k (keyOfSummary s)) as [->|Hne].
        * right. exists s. split; [left; reflexivity|]. split; congruence.
        * left. exact Hm.
      + right. exists s'. split; [right; exact Hin|]. split; assumption. }
  intros Hget. destruct (H [] Hget) as [Hm|Hs]; [discriminate|exact Hs].
Qed.

(** Every summary has an entry. *)
Lemma buildTeamRankMap_present (summaries : list TeamSummary) (s : TeamSummary) :
  In s summaries -> Map_get (buildTeamRankMap summaries) (keyOfSummary s) <> None.
Proof.
  unfold buildTeamRankMap.
  assert (H : forall m k,
    Map_get m k <> None \/ (exists s, In s summaries /\ keyOfSummary s = k) ->
    Map_get (fold_left
      (fun m tp => Map_set m (keyOfSummary tp) (TeamCategory_ord (category tp)))
      summaries m) k <> None).
  { induction summaries as [|s0 t IH]; intros m k Hk; simpl in *.
    - destruct Hk as [Hk|(s' & [] & _)]. exact Hk.
    - apply IH. rewrite Map_get_set.
      destruct (MapKey_eqb_spec k (keyOfSummary s0)) as [->|Hne].
      + left. discriminate.
      + destruct Hk as [Hk|(s' & [<-|Hin] & Hs')].
        * left. exact Hk.
        * congruence.
        * right. exists s'. split; assumption. }
  intros Hin. apply H. right. exists s. split; [exact Hin|reflexivity].
Qed.

(** The lookup of somebody without a team misses: the key is
    [undefined], and no entry has it. *)
Lemma rankOf_teamless (summaries : list TeamSummary) (p : Person) :
  teamIdOf p = None -> rankOf (buildTeamRankMap summaries) p = MAX_SAFE_INTEGER.
Proof.
  intros Hp. unfold rankOf, keyOfPerson. rewrite Hp.
  destruct (Map_get (buildTeamRankMap summaries) KUndefined) as [v|] eqn:E;
    [|reflexivity].
  apply buildTeamRankMap_get in E. destruct E as (s & _ & Hk & _).
  unfold keyOfSummary in Hk. destruct (teamId s); discriminate.
Qed.

Lemma TeamCategory_ord_range (c : TeamCategory) : 0 <= TeamCategory_ord c <= 3.
Proof. destruct c; simpl; lia. Qed.

(** The lookup of a member of a team that has a summary hits, and gives
    the ordinal of a category. *)
Lemma rankOf_team (summaries : list TeamSummary) (p : Person) (i : string) :
  teamIdOf p = Some i ->
  (exists s, In s summaries /\ teamId s = Some i) ->
  0 <= rankOf (buildTeamRankMap summaries) p <= 3.
Proof.
  intros Hp (s & Hin & Hs). unfold rankOf, keyOfPerson. rewrite Hp.
  pose proof (buildTeamRankMap_present summaries s Hin) as Hpres.
  unfold keyOfSummary in Hpres. rewrite Hs in Hpres.
  destruct (Map_get (buildTeamRankMap summaries) (KString i)) as [v|] eqn:E;
    [|congruence].
  apply buildTeamRankMap_get in E. destruct E as (s' & _ & _ & ->).
  apply TeamCategory_ord_range.
Qed.

(* ----------------------------------------------------------------- *)
(** ** The classifier: every team gets a summary *)

(** What holds of the state of the classifier when the people of [seen]
    have been visited and have valid team ids: the team under the cursor
    is not the empty string, and every team seen is under the cursor or
    has its summary. *)
Lemma classifyStep_covers (seen : list Person) (st : ClassifierState) (p : Person) :
  validId p ->
  (teamId (currSummary st) <> Some EmptyString
   /\ forall i, In (Some i) (map teamIdOf seen) ->
        teamId (currSummary st) = Some i
        \/ exists s, In s (teamSummaries st) /\ teamId s = Some i) ->
  let st' := classifyStep st p in
  teamId (currSummary st') <> Some EmptyString
  /\ forall i, In (Some i) (map teamIdOf (seen ++ [p])) ->
       teamId (currSummary st') = Some i
       \/ exists s, In s (teamSummaries st') /\ teamId s = Some i.
Proof.
  intros Hv [Hne Hcov]. unfold classifyStep.
  assert (Hp : teamIdOf p <> Some EmptyString)
    by (intros E; apply (Hv _ E); reflexivity).
  (* the state after the first [if] *)
  set (st1 := if negb (truthy (teamId (currSummary st))) then _ else st).
  assert (H1 : teamId (currSummary st1) <> Some EmptyString
               /\ teamSummaries st1 = teamSummaries st
               /\ (teamId (currSummary st1) = teamId (currSummary st)
                   \/ (teamId (currSummary st) = None
                       /\ teamId (currSummary st1) = teamIdOf p))).
  { subst st1. destruct (truthy (teamId (currSummary st))) eqn:Et; simpl.
    - auto.
    - split; [exact Hp|]. split; [reflexivity|]. right. split; [|reflexivity].
      destruct (teamId (currSummary st)) as [i|]; [|reflexivity].
      simpl in Et. apply negb_false_iff, String.eqb_eq in Et. congruence. }
  clearbody st1. destruct H1 as (Hne1 & Hsum1 & Hcur1).
  assert (Hcov1 : forall i, In (Some i) (map teamIdOf seen) ->
            teamId (currSummary st1) = Some i
            \/ exists s, In s (teamSummaries st1) /\ teamId s = Some i).
  { intros i Hi. rewrite Hsum1. destruct (Hcov i Hi) as [Hc|Hs]; [|right; exact Hs].
    destruct Hcur1 as [E|[E _]]; [left|]; congruence. }
  destruct (looseEq (teamId (currSummary st1)) (teamIdOf p)) eqn:El; simpl.
  - apply looseEq_true in El. split; [exact Hne1|].
    intros i Hi. rewrite map_app in Hi. apply in_app_or in Hi.
    destruct Hi as [Hi|[Hi|[]]]; [apply Hcov1, Hi|]. left. congruence.
  - split; [exact Hp|].
    intros i Hi. rewrite map_app in Hi. apply in_app_or in Hi.
    destruct Hi as [Hi|[Hi|[]]]; [|left; congruence].
    right. unfold closeRun. destruct (Hcov1 i Hi) as [Hc|(s & Hs & Hid)].
    + eexists. split; [apply in_or_app; right; left; reflexivity|]. exact Hc.
    + exists s. split; [apply in_or_app; left; exact Hs|exact Hid].
Qed.

Lemma classify_covers (people : list Person) : forall seen st,
  Forall validId people ->
  (teamId (currSummary st) <> Some EmptyString
   /\ forall i, In (Some i) (map teamIdOf seen) ->
        teamId (currSummary st) = Some i
        \/ exists s, In s (teamSummaries st) /\ teamId s = Some i) ->
  forall i, In (Some i) (map teamIdOf (seen ++ people)) ->
    exists s, In s (closeRun (fold_left classifyStep people st)) /\ teamId s = Some i.
Proof.
  induction people as [|p t IH]; intros seen st Hv Hinv i Hi; simpl.
  - rewrite app_nil_r in Hi. destruct Hinv as [_ Hcov].
    unfold closeRun. destruct (Hcov i Hi) as [Hc|(s & Hs & Hid)].
    + eexists. split; [apply in_or_app; right; left; reflexivity|]. exact Hc.
    + exists s. split; [apply in_or_app; left; exact Hs|exact Hid].
  - inversion Hv as [|? ? Hp Ht]; subst.
    apply (IH (seen ++ [p]) (classifyStep st p) Ht).
    + apply classifyStep_covers; assumption.
    + rewrite <- app_assoc. exact Hi.
Qed.

(** Every team of people with valid ids has a summary. *)
Lemma sortTeamsByCategory_covers (people : list Person) (p : Person) (i : string) :
  Forall validId people -> In p people -> teamIdOf p = Some i ->
  exists s, In s (sortTeamsByCategory people) /\ teamId s = Some i.
Proof.
  intros Hv Hin Hp.
  destruct (classify_covers people [] classifierInit Hv) with (i := i)
    as (s & Hs & Hid).
  - split; [discriminate|]. intros j [].
  - simpl. rewrite <- Hp. apply in_map, Hin.
  - exists s. split; [|exact Hid]. unfold sortTeamsByCategory.
    apply (Permutation_in _ (Permutation_sym (sort_perm _ _))), Hs.
Qed.

Lemma validIds_Forall (people : list Person) :
  validIds people -> Forall validId people.
Proof.
  unfold validIds. rewrite forallb_forall, Forall_forall.
  intros H p Hin i Hi. specialize (H p Hin). unfold validIdb in H.
  rewrite Hi in H. apply negb_true_iff, String.eqb_neq in H. exact H.
Qed.




(* ----------------------------------------------------------------- *)
(** ** The second sort *)

Lemma String_lt_irrefl (a : string) : ~ String_as_OT.lt a a.
Proof. apply (StrictOrder_Irreflexive a). Qed.

Lemma String_lt_asym (a b : string) :
  String_as_OT.lt a b -> String_as_OT.lt b a -> False.
Proof.
  intros H1 H2. apply (String_lt_irrefl a).
  apply (StrictOrder_Transitive a b a); assumption.
Qed.

Lemma localeCompare_le (a b : string) :
  localeCompare a b <= 0 <->
  collationKey a = collationKey b
  \/ String_as_OT.lt (collationKey a) (collationKey b).
Proof.
  unfold localeCompare.
  destruct (String_as_OT.compare_spec (collationKey a) (collationKey b))
    as [E|E|E]; unfold String_as_OT.eq in *; split; intros H; try lia; auto.
  destruct H as [H|H].
  - exfalso. rewrite H in E. exact (String_lt_irrefl _ E).
  - exfalso. exact (String_lt_asym _ _ E H).
Qed.

Lemma localeCompare_opp (a b : string) : localeCompare b a = - localeCompare a b.
Proof.
  unfold localeCompare.
  destruct (String_as_OT.compare_spec (collationKey a) (collationKey b)) as [E|E|E];
    destruct (String_as_OT.compare_spec (collationKey b) (collationKey a))
      as [E'|E'|E']; try reflexivity;
    exfalso; unfold String_as_OT.eq in *.
  - rewrite E in E'. exact (String_lt_irrefl _ E').
  - rewrite E in E'. exact (String_lt_irrefl _ E').
  - rewrite E' in E. exact (String_lt_irrefl _ E).
  - exact (String_lt_asym _ _ E E').
  - rewrite E' in E. exact (String_lt_irrefl _ E).
  - exact (String_lt_asym _ _ E E').
Qed.

Lemma localeCompare_range (a b : string) : -1 <= localeCompare a b <= 1.
Proof.
  unfold localeCompare.
  destruct (String_as_OT.compare (collationKey a) (collationKey b)); lia.
Qed.


Lemma localeCompare_gt (a b : string) :
  localeCompare a b > 0 -> localeCompare b a <= 0.
Proof. rewrite (localeCompare_opp a b). lia. Qed.

Lemma localeCompare_trans (a b c : string) :
  localeCompare a b <= 0 -> localeCompare b c <= 0 -> localeCompare a c <= 0.
Proof.
  rewrite !localeCompare_le. intros [E1|H1] [E2|H2].
  - left. congruence.
  - right. rewrite E1. exact H2.
  - right. rewrite <- E2. exact H1.
  - right. apply (StrictOrder_Transitive _ (collationKey b) _); assumption.
Qed.


(** The comparator of the second sort, read on ranks and team ids. *)
Lemma compareByTeamRank_le (m : RankMap) (a b : Person) :
  compareByTeamRank m a b <= 0 <->
  rankOf m a < rankOf m b
  \/ (rankOf m a = rankOf m b
      /\ match teamIdOf a, teamIdOf b with
         | Some x, Some y => localeCompare x y <= 0
         | _, _ => True
         end).
Proof.
  unfold compareByTeamRank, teamIdOf.
  destruct (Z.eqb_spec (rankOf m a) (rankOf m b)) as [E|E]; simpl; [|lia].
  destruct (Person.team a) as [ta|], (Person.team b) as [tb|]; simpl;
    try (split; [intros _; right; split; [exact E|exact I] | intros _; lia]).
  destruct (Z.eqb_spec (localeCompare (Team.id ta) (Team.id tb)) 0) as [E0|E0];
    simpl; lia.
Qed.

Lemma compareByTeamRank_gt (m : RankMap) (a b : Person) :
  compareByTeamRank m a b > 0 ->
  rankOf m a > rankOf m b
  \/ (rankOf m a = rankOf m b
      /\ exists x y, teamIdOf a = Some x /\ teamIdOf b = Some y
                     /\ localeCompare x y > 0).
Proof.
  unfold compareByTeamRank, teamIdOf.
  destruct (Z.eqb_spec (rankOf m a) (rankOf m b)) as [E|E]; simpl; [|lia].
  destruct (Person.team a) as [ta|], (Person.team b) as [tb|]; simpl; try lia.
  destruct (Z.eqb_spec (localeCompare (Team.id ta) (Team.id tb)) 0) as [E0|E0];
    simpl; try lia.
  intros H. right. split; [exact E|]. eauto.
Qed.

Lemma ranked_grouped (grouped : list Person) :
  Forall validId grouped -> Forall (ranked (teamRankMapOf grouped)) grouped.
Proof.
  intros Hv. apply Forall_forall. intros p Hin. unfold ranked, teamRankMapOf.
  destruct (teamIdOf p) as [i|] eqn:Ep.
  - apply (rankOf_team _ p i Ep).
    apply (sortTeamsByCategory_covers grouped p i Hv Hin Ep).
  - apply rankOf_teamless, Ep.
Qed.

Lemma compareByTeamRank_total (m : RankMap) (a b : Person) :
  compareByTeamRank m a b > 0 -> compareByTeamRank m b a <= 0.
Proof.
  intros H. apply compareByTeamRank_gt in H. apply compareByTeamRank_le.
  destruct H as [H|(E & x & y & Ha & Hb & Hc)]; [left; lia|].
  right. split; [lia|]. rewrite Ha, Hb. apply localeCompare_gt, Hc.
Qed.

Lemma compareByTeamRank_trans (m : RankMap) (a b c : Person) :
  ranked m a -> ranked m b -> ranked m c ->
  compareByTeamRank m a b <= 0 -> compareByTeamRank m b c <= 0 ->
  compareByTeamRank m a c <= 0.
Proof.
  unfold ranked. rewrite !compareByTeamRank_le. unfold MAX_SAFE_INTEGER.
  intros Ra Rb Rc [H1|[E1 H1]] [H2|[E2 H2]]; try (left; lia).
  right. split; [lia|].
  destruct (teamIdOf a) as [x|]; [|exact I].
  destruct (teamIdOf c) as [z|]; [|exact I].
  destruct (teamIdOf b) as [y|]; [|lia].
  apply (localeCompare_trans x y z); assumption.
Qed.

Lemma rankTeams_sorted (grouped : list Person) :
  Forall validId grouped ->
  StronglySorted
    (fun a b => compareByTeamRank (teamRankMapOf grouped) a b <= 0)
    (rankTeams grouped).
Proof.
  intros Hv. unfold rankTeams.
  apply (sort_sorted Person _ (ranked (teamRankMapOf grouped))).
  - intros x y _ _. apply compareByTeamRank_total.
  - apply compareByTeamRank_trans.
  - apply ranked_grouped, Hv.
Qed.

Lemma rankOf_same_team (m : RankMap) (p q : Person) :
  teamIdOf p = teamIdOf q -> rankOf m p = rankOf m q.
Proof. intros E. unfold rankOf, keyOfPerson. rewrite E. reflexivity. Qed.

Lemma StronglySorted_weaken {A : Type} (R R' : A -> A -> Prop) (l : list A) :
  StronglySorted R l ->
  (forall x y, In x l -> In y l -> R x y -> R' x y) ->
  StronglySorted R' l.
Proof.
  induction 1 as [|a t Hs IH Ha]; intros Himp; constructor.
  - apply IH. intros x y Hx Hy. apply Himp; right; assumption.
  - rewrite Forall_forall in *. intros y Hy.
    apply Himp; [left; reflexivity | right; exact Hy | apply Ha, Hy].
Qed.

Lemma ranked_rankTeams (grouped : list Person) :
  Forall validId grouped ->
  Forall (ranked (teamRankMapOf grouped)) (rankTeams grouped).
Proof.
  intros Hv.
  apply (Permutation_Forall (Permutation_sym (rankTeams_perm grouped))).
  apply ranked_grouped, Hv.
Qed.

(** The second sort leaves the teamless people last. *)
Lemma rankTeams_teamlessLast (grouped : list Person) :
  Forall validId grouped -> teamlessLast (rankTeams grouped).
Proof.
  intros Hv. unfold teamlessLast.
  apply (StronglySorted_weaken _ _ _ (rankTeams_sorted grouped Hv)).
  pose proof (ranked_rankTeams grouped Hv) as Hr. rewrite Forall_forall in Hr.
  intros x y Hx Hy Hc Hnone.
  apply compareByTeamRank_le in Hc.
  pose proof (Hr x Hx) as Rx. pose proof (Hr y Hy) as Ry.
  unfold ranked, MAX_SAFE_INTEGER in *. rewrite Hnone in Rx.
  destruct (teamIdOf y) as [i|]; [|reflexivity]. lia.
Qed.


Lemma nth_error_same_map {A B : Type} (f : A -> B) (l l' : list A) (i : nat) (x : A) :
  map f l = map f l' -> nth_error l i = Some x ->
  exists x', nth_error l' i = Some x' /\ f x' = f x.
Proof.
  intros Hmap Hx.
  pose proof (map_nth_error f i l Hx) as H. rewrite Hmap in H.
  rewrite nth_error_map in H.
  destruct (nth_error l' i) as [x'|]; [|discriminate].
  exists x'. split; [reflexivity|]. simpl in H. congruence.
Qed.

(** The interleaving pass keeps, position by position, the team ids of
    the array the second sort leaves, whatever the order of the array the
    second sort is given. *)
Lemma interleavingPass_teams (grouped : list Person) :
  Forall validId grouped ->
  map teamIdOf (fst (interleavingPass (rankTeams grouped)))
  = map teamIdOf (rankTeams grouped).
Proof.
  intros Hg.
  destruct (interleavingPass_spec (rankTeams grouped)) as (out & Heq & _ & Hkeys).
  rewrite Heq. simpl. apply Hkeys.
  - apply (Permutation_Forall (Permutation_sym (rankTeams_perm _))), Hg.
  - apply rankTeams_teamlessLast, Hg.
Qed.

Lemma calculateDeskLayout_teams (people : list Person) :
  validIds people ->
  Forall validId (groupByTeam people)
  /\ map teamIdOf (calculateDeskLayout people)
     = map teamIdOf (rankTeams (groupByTeam people)).
Proof.
  intros Hv. apply validIds_Forall in Hv.
  assert (Hg : Forall validId (groupByTeam people))
    by (apply (Permutation_Forall (Permutation_sym (groupByTeam_perm people))), Hv).
  split; [exact Hg|]. apply interleavingPass_teams, Hg.
Qed.

(** Along the layout the ranks never go down: the teams classified
    [DOG_HATERS] (rank 0), then those classified [MIXED] (1), then those
    classified [DOG_LOVERS] (3), then the teamless people
    ([MAX_SAFE_INTEGER]). *)
Lemma calculateDeskLayout_ranks_ascend (people : list Person) :
  validIds people ->
  forall i j p q, (i < j)%nat ->
    nth_error (calculateDeskLayout people) i = Some p ->
    nth_error (calculateDeskLayout people) j = Some q ->
    rankOf (teamRankMapOf (groupByTeam people)) p
    <= rankOf (teamRankMapOf (groupByTeam people)) q.
Proof.
  intros Hv i j p q Hij Hi Hj.
  destruct (calculateDeskLayout_teams people Hv) as [Hg Hkeys].
  destruct (nth_error_same_map teamIdOf _ _ i p Hkeys Hi) as (p' & Hi' & Ep).
  destruct (nth_error_same_map teamIdOf _ _ j q Hkeys Hj) as (q' & Hj' & Eq).
  rewrite <- (rankOf_same_team _ p' p Ep), <- (rankOf_same_team _ q' q Eq).
  pose proof (StronglySorted_nth _ _ (rankTeams_sorted _ Hg) i j p' q' Hij Hi' Hj') as H.
  cbv beta in H. apply compareByTeamRank_le in H. lia.
Qed.

(* ----------------------------------------------------------------- *)
(** ** [calculateDeskLayout]: teams *)



(** C2 at two members of team "a" with, between them in the input, a
    member of the team whose id is "a" followed by U+0001: the ids are
    valid and different, the collation ties them, both comparators return
    0 on the teams, and the layout is the input, with team "a" in two
    pieces. *)
Theorem team_split_by_collation_tie :
  validIds tiedTeams
  /\ idWithIgnorable <> "a"%string
  /\ localeCompare "a" idWithIgnorable = 0
  /\ sortByTeamAndDogStatus (member "m1" "a" Like)
       (member "m2" idWithIgnorable Like) = 0
  /\ groupByTeam tiedTeams = tiedTeams
  /\ calculateDeskLayout tiedTeams = tiedTeams
  /\ ~ teamsContiguous (calculateDeskLayout tiedTeams).
Proof.
  split; [reflexivity|]. split; [discriminate|].
  split; [reflexivity|]. split; [reflexivity|].
  split; [reflexivity|]. split; [reflexivity|].
  intros H.
  assert (E : teamIdOf (member "m2" idWithIgnorable Like) = Some "a"%string).
  { apply (H 0%nat 1%nat 2%nat (member "m1" "a" Like)
             (member "m2" idWithIgnorable Like) (member "m3" "a" Avoid));
      try reflexivity. lia. }
  discriminate E.
Qed.





(** C3 at a team that only has dogs and somebody without a team: the
    team is classified [DOG_LOVERS], the rank map holds 3 for the team and
    for the [null] key, the lookup for the teamless person misses, and the
    layout puts the teamless person after the team, not before it. *)
Theorem teamless_follow_dog_lovers :
  sortTeamsByCategory (groupByTeam loversAndTeamless)
  = [ {| teamId := Some "lovers"%string; category := DOG_LOVERS |};
      {| teamId := None; category := DOG_LOVERS |} ]
  /\ teamRankMapOf (groupByTeam loversAndTeamless)
     = [ (KString "lovers", 3); (KNull, 3) ]
  /\ rankOf (teamRankMapOf (groupByTeam loversAndTeamless)) (teamless "N" Have)
     = MAX_SAFE_INTEGER
  /\ calculateDeskLayout loversAndTeamless
     = [ member "A" "lovers" Have; teamless "N" Have ].
Proof. repeat split. Qed.

(* ----------------------------------------------------------------- *)
(** ** The classifier: one summary for each run *)



(** The three ways an iteration of the classifier goes. *)
Lemma classifyStep_refresh (st : ClassifierState) (p : Person) :
  truthy (teamId (currSummary st)) = false ->
  classifyStep st p
  = {| currSummary := freshSummary p;
       teamDogStatusCount := countStatus (Person.dogStatus p) (teamDogStatusCount st);
       teamSummaries := teamSummaries st |}.
Proof.
  intros Et. unfold classifyStep. rewrite Et. cbn [negb currSummary freshSummary teamId].
  rewrite (proj2 (looseEq_true _ _) eq_refl). reflexivity.
Qed.

Lemma classifyStep_extend (st : ClassifierState) (p : Person) :
  truthy (teamId (currSummary st)) = true ->
  looseEq (teamId (currSummary st)) (teamIdOf p) = true ->
  classifyStep st p
  = {| currSummary := currSummary st;
       teamDogStatusCount := countStatus (Person.dogStatus p) (teamDogStatusCount st);
       teamSummaries := teamSummaries st |}.
Proof.
  intros Et E. unfold classifyStep. rewrite Et. cbn [negb]. rewrite E. reflexivity.
Qed.

Lemma classifyStep_close (st : ClassifierState) (p : Person) :
  truthy (teamId (currSummary st)) = true ->
  looseEq (teamId (currSummary st)) (teamIdOf p) = false ->
  classifyStep st p
  = {| currSummary := freshSummary p;
       teamDogStatusCount := countStatus (Person.dogStatus p) zeroCount;
       teamSummaries := closeRun st |}.
Proof.
  intros Et E. unfold classifyStep. rewrite Et. cbn [negb]. rewrite E. reflexivity.
Qed.





(** A team id that is the empty string is taken for no team by the tests
    [!currTeam.teamId] and [!currTeam]: the team gets no entry in the rank
    map and its members are not told from the teamless people. *)
Example empty_team_id_reads_as_no_team :
  forallb validIdb emptyTeamId = false
  /\ teamRankMapOf (groupByTeam emptyTeamId) = [ (KNull, 1) ]
  /\ map Person.id (calculateDeskLayout emptyTeamId)
     = ["e1"; "n"; "e2"; "z"]%string.
Proof. repeat split. Qed.

(** The boundary out of a teamless run is not seen by the classifier:
    the test [!currTeam.teamId] takes the [null] of a teamless run for
    "no run yet", so the run is not closed, and its counts go to the team
    that follows. *)
Example classifier_joins_teamless_run_to_next_team :
  groupByTeam [ teamless "n" Avoid; member "b1" "b" Have ]
  = [ teamless "n" Avoid; member "b1" "b" Have ]
  /\ sortTeamsByCategory [ teamless "n" Avoid; member "b1" "b" Have ]
  = [ {| teamId := Some "b"%string; category := MIXED |} ]
  /\ map summaryOfRun (teamRuns [ teamless "n" Avoid; member "b1" "b" Have ])
     = [ {| teamId := None; category := DOG_HATERS |};
         {| teamId := Some "b"%string; category := DOG_LOVERS |} ].
Proof. repeat split. Qed.

(** With no people the classifier still returns a summary. *)
Example classifier_on_nobody :
  sortTeamsByCategory [] = [ {| teamId := None; category := DOG_LOVERS |} ]
  /\ teamRuns [] = [].
Proof. split; reflexivity. Qed.

(** The two layouts of the comment that documents [calculateDeskLayout]. *)
Example documented_layout_of_five :
  map Person.id
    (calculateDeskLayout
       [ member "Alice" "t" Like; member "Bob" "t" Like;
         member "Charlie" "t" Avoid; member "David" "t" Have;
         member "Eve" "t" Have ])
  = ["Charlie"; "Alice"; "David"; "Bob"; "Eve"]%string.
Proof. reflexivity. Qed.

Example documented_layout_of_four :
  map Person.id
    (calculateDeskLayout
       [ member "Alice" "t" Like; member "Charlie" "t" Avoid;
         member "David" "t" Have; member "Eve" "t" Have ])
  = ["Charlie"; "Alice"; "David"; "Eve"]%string.
Proof. reflexivity. Qed.

(* ================================================================= *)
(** * Further properties of the code *)

(** ** [reorderSubArray] for every pair of indices *)

(** The array [reorderSubArray] returns, on both sides of its guard. *)
Lemma reorderSubArray_result {A : Type} (array : list A) (start end_ : Z)
    (f : list A -> list A) :
  (invalidRange array start end_ = true
   /\ fst (reorderSubArray array start end_ f) = array)
  \/ (0 <= start /\ start <= end_ /\ end_ < len array
      /\ fst (reorderSubArray array start end_ f)
         = firstn (Z.to_nat start) array
             ++ f (firstn (Z.to_nat (end_ - start + 1)) (skipn (Z.to_nat start) array))
             ++ skipn (Z.to_nat (end_ + 1)) array).
Proof.
  destruct (invalidRange array start end_) eqn:E.
  - left. split; [reflexivity|]. unfold reorderSubArray. rewrite E. reflexivity.
  - right. apply invalidRange_false in E. destruct E as (H1 & H2 & H3).
    repeat (split; [assumption|]).
    rewrite reorderSubArray_eq by assumption. reflexivity.
Qed.

(** X1.  With a transform that returns its slice as it is,
    [reorderSubArray] returns the array as it is, for every pair of
    indices, valid or not. *)
Theorem reorderSubArray_identity {A : Type} (array : list A) (start end_ : Z) :
  fst (reorderSubArray array start end_ (fun subArray => subArray)) = array.
Proof.
  destruct (reorderSubArray_result array start end_ (fun l => l))
    as [[_ H]|(H1 & H2 & H3 & H)]; rewrite H; [reflexivity|].
  symmetry. apply valid_range_parts; assumption.
Qed.

(** X2.  With a transform that rearranges its slice, [reorderSubArray]
    rearranges the array, for every pair of indices: the result has the
    elements of the array with their multiplicities, and its length. *)
Theorem reorderSubArray_permutes {A : Type} (array : list A) (start end_ : Z)
    (reOrderLogic : list A -> list A) :
  (forall subArray, Permutation (reOrderLogic subArray) subArray) ->
  Permutation (fst (reorderSubArray array start end_ reOrderLogic)) array
  /\ length (fst (reorderSubArray array start end_ reOrderLogic)) = length array.
Proof.
  intros Hf.
  assert (H : Permutation (fst (reorderSubArray array start end_ reOrderLogic)) array).
  { destruct (reorderSubArray_result array start end_ reOrderLogic)
      as [[_ H]|(H1 & H2 & H3 & H)]; rewrite H; [apply Permutation_refl|].
    pose proof (valid_range_parts array start end_ H1 H2 H3) as Hdec.
    set (before := firstn (Z.to_nat start) array) in *.
    set (target := firstn (Z.to_nat (end_ - start + 1)) (skipn (Z.to_nat start) array)) in *.
    set (after := skipn (Z.to_nat (end_ + 1)) array) in *.
    apply (Permutation_trans (l' := before ++ target ++ after));
      [|rewrite <- Hdec; apply Permutation_refl].
    apply Permutation_app_head, Permutation_app_tail, Hf. }
  split; [exact H|apply Permutation_length, H].
Qed.

Lemma reorderSubArray_permutes_witness :
  (forall subArray : list Z, Permutation (rev subArray) subArray)
  /\ Permutation (fst (reorderSubArray [10; 20; 30; 40; 50] 1 3 (@rev Z)))
       [10; 20; 30; 40; 50].
Proof.
  assert (H : forall subArray : list Z, Permutation (rev subArray) subArray)
    by (intros l; apply Permutation_sym, Permutation_rev).
  split; [exact H|].
  exact (proj1 (reorderSubArray_permutes [10; 20; 30; 40; 50] 1 3 (@rev Z) H)).
Defined.

(** X3.  Two calls of [reorderSubArray] on the same valid range compose:
    when the first transform keeps the length of its slice, transforming
    with it and then with a second one is transforming once with the
    second after the first. *)
Theorem reorderSubArray_compose {A : Type} (array : list A) (start end_ : Z)
    (f g : list A -> list A) :
  0 <= start -> start <= end_ -> end_ < len array ->
  (forall subArray, length (f subArray) = length subArray) ->
  fst (reorderSubArray (fst (reorderSubArray array start end_ f)) start end_ g)
  = fst (reorderSubArray array start end_ (fun subArray => g (f subArray))).
Proof.
  intros H1 H2 H3 Hf.
  rewrite (reorderSubArray_eq array start end_ f H1 H2 H3).
  rewrite (reorderSubArray_eq array start end_ (fun l => g (f l)) H1 H2 H3).
  cbn [fst].
  set (before := firstn (Z.to_nat start) array).
  set (target := firstn (Z.to_nat (end_ - start + 1)) (skipn (Z.to_nat start) array)).
  set (after := skipn (Z.to_nat (end_ + 1)) array).
  assert (Hb : length before = Z.to_nat start).
  { unfold before. rewrite length_firstn. unfold len in H3. lia. }
  assert (Ht : length target = Z.to_nat (end_ - start + 1)).
  { unfold target. rewrite length_firstn, length_skipn. unfold len in H3. lia. }
  assert (Hlen : end_ < len (before ++ f target ++ after)).
  { unfold len. rewrite !length_app, Hf, Hb, Ht. lia. }
  rewrite (reorderSubArray_eq _ start end_ g H1 H2 Hlen). cbn [fst].
  assert (E1 : firstn (Z.to_nat start) (before ++ f target ++ after) = before).
  { rewrite <- Hb. rewrite firstn_app, Nat.sub_diag, firstn_O, app_nil_r.
    apply firstn_all. }
  assert (E2 : skipn (Z.to_nat start) (before ++ f target ++ after)
               = f target ++ after).
  { rewrite <- Hb. rewrite skipn_app, Nat.sub_diag, skipn_all. reflexivity. }
  assert (E3 : firstn (Z.to_nat (end_ - start + 1)) (f target ++ after) = f target).
  { rewrite <- Ht, <- (Hf target).
    rewrite firstn_app, Nat.sub_diag, firstn_O, app_nil_r. apply firstn_all. }
  assert (E4 : skipn (Z.to_nat (end_ + 1)) (before ++ f target ++ after) = after).
  { replace (Z.to_nat (end_ + 1)) with (length (f target) + length before)%nat
      by (rewrite Hf, Hb, Ht; lia).
    rewrite <- skipn_skipn.
    rewrite (skipn_app (length before)), Nat.sub_diag, skipn_all. cbn [app skipn].
    rewrite skipn_app, Nat.sub_diag, skipn_all. reflexivity. }
  rewrite E1, E2, E3, E4. reflexivity.
Qed.

Lemma reorderSubArray_compose_witness :
  0 <= 1 /\ 1 <= 3 /\ 3 < len [10; 20; 30; 40; 50]
  /\ (forall subArray : list Z, length (rev subArray) = length subArray)
  /\ fst (reorderSubArray (fst (reorderSubArray [10; 20; 30; 40; 50] 1 3 (@rev Z)))
            1 3 (@rev Z))
     = fst (reorderSubArray [10; 20; 30; 40; 50] 1 3 (fun l => rev (rev l))).
Proof.
  assert (H1 : 0 <= 1) by lia.
  assert (H2 : 1 <= 3) by lia.
  assert (H3 : 3 < len [10; 20; 30; 40; 50]) by (vm_compute; reflexivity).
  assert (H4 : forall subArray : list Z, length (rev subArray) = length subArray)
    by (intros l; apply length_rev).
  repeat (split; [assumption|]).
  exact (reorderSubArray_compose [10; 20; 30; 40; 50] 1 3 (@rev Z) (@rev Z) H1 H2 H3 H4).
Defined.

(* ----------------------------------------------------------------- *)
(** ** [insertPeopleWithDogLogic] *)

Lemma skipn_nth_error {A : Type} (l : list A) (n : nat) (x : A) :
  nth_error l n = Some x -> skipn n l = x :: skipn (S n) l.
Proof.
  revert n. induction l as [|a t IH]; intros [|n] H; simpl in *; try discriminate.
  - congruence.
  - apply IH, H.
Qed.

Lemma findIndexFrom_none {A : Type} (pred : A -> Z -> list A -> bool)
    (arr rest : list A) (index : Z) :
  (forall item i, In item rest -> pred item i arr = false) ->
  findIndexFrom pred arr rest index = -1.
Proof.
  revert index. induction rest as [|item rest' IH]; intros index H; simpl.
  - reflexivity.
  - rewrite (H item index (or_introl eq_refl)). apply IH.
    intros it i Hin. apply H. right. exact Hin.
Qed.

(** What a slice that is split becomes: its first person, then the first
    person with another dog status, then the rest. *)
Lemma insertPeopleWithDogLogic_shape (subArray : list Person) :
  len subArray > 3 ->
  findIndex differsFromFirst subArray <> -1 ->
  exists first other rest,
    hd_error subArray = Some first
    /\ Person.dogStatus other <> Person.dogStatus first
    /\ insertPeopleWithDogLogic subArray = first :: other :: rest.
Proof.
  intros Hlen Hk.
  rewrite (insertPeopleWithDogLogic_split subArray Hlen Hk).
  destruct (splitPoint_spec subArray Hk) as (Hsp & Hb & _).
  unfold findIndex in Hk.
  destruct (findIndexFrom_found differsFromFirst subArray subArray 0 Hk ltac:(lia))
    as (n & item & H1 & H2 & H3 & _).
  unfold findIndex in *. rewrite H1 in *. simpl in Hsp, Hb |- *.
  rewrite Nat2Z.id in *.
  destruct subArray as [|first t]; [destruct n; discriminate|].
  destruct n as [|n]; [lia|].
  rewrite (skipn_nth_error _ _ _ H2).
  cbn [firstn]. rewrite alternate_cons.
  exists first, item, (alternate (firstn n t) (skipn (S (S n)) (first :: t))).
  split; [reflexivity|]. split; [|reflexivity].
  unfold differsFromFirst in H3. apply andb_true_iff in H3. destruct H3 as [_ H3].
  apply negb_true_iff in H3.
  destruct (DogStatus_eqb_spec (Person.dogStatus item) (Person.dogStatus first));
    congruence.
Qed.

(** X4.  [insertPeopleWithDogLogic] rearranges its slice: the result has
    the same people with their multiplicities, the same length, and the
    same first person. *)
Theorem insertPeopleWithDogLogic_rearranges (subArray : list Person) :
  Permutation (insertPeopleWithDogLogic subArray) subArray
  /\ length (insertPeopleWithDogLogic subArray) = length subArray
  /\ hd_error (insertPeopleWithDogLogic subArray) = hd_error subArray.
Proof.
  pose proof (insertPeopleWithDogLogic_perm subArray) as Hp.
  split; [exact Hp|]. split; [apply Permutation_length, Hp|].
  destruct (Z_gt_le_dec (len subArray) 3) as [Hlen|Hlen].
  - destruct (Z.eq_dec (findIndex differsFromFirst subArray) (-1)) as [Hk|Hk].
    + unfold insertPeopleWithDogLogic. rewrite Hk. simpl.
      destruct (len subArray <=? 3); reflexivity.
    + destruct (insertPeopleWithDogLogic_shape subArray Hlen Hk)
        as (first & other & rest & Hhd & _ & Heq).
      rewrite Heq, Hhd. reflexivity.
  - unfold insertPeopleWithDogLogic.
    destruct (len subArray <=? 3) eqn:E; [reflexivity|].
    apply Z.leb_gt in E. lia.
Qed.

(** X5.  [insertPeopleWithDogLogic] is idempotent: interleaving a slice
    that has been interleaved changes nothing. *)
Theorem insertPeopleWithDogLogic_idempotent (subArray : list Person) :
  insertPeopleWithDogLogic (insertPeopleWithDogLogic subArray)
  = insertPeopleWithDogLogic subArray.
Proof.
  destruct (Z_gt_le_dec (len subArray) 3) as [Hlen|Hlen].
  - destruct (Z.eq_dec (findIndex differsFromFirst subArray) (-1)) as [Hk|Hk].
    + assert (E : insertPeopleWithDogLogic subArray = subArray).
      { unfold insertPeopleWithDogLogic. rewrite Hk. simpl.
        destruct (len subArray <=? 3); reflexivity. }
      rewrite !E. reflexivity.
    + destruct (insertPeopleWithDogLogic_shape subArray Hlen Hk)
        as (first & other & rest & _ & Hne & Heq).
      assert (Hl : len (insertPeopleWithDogLogic subArray) = len subArray).
      { unfold len. f_equal. apply Permutation_length, insertPeopleWithDogLogic_perm. }
      rewrite Heq in *.
      assert (Hfind : findIndex differsFromFirst (first :: other :: rest) = 1).
      { unfold findIndex. cbn [findIndexFrom]. unfold differsFromFirst at 1.
        cbn [Z.gtb Z.compare andb]. unfold differsFromFirst at 1.
        destruct (DogStatus_eqb_spec (Person.dogStatus other) (Person.dogStatus first));
          [contradiction|reflexivity]. }
      unfold insertPeopleWithDogLogic at 1.
      destruct (len (first :: other :: rest) <=? 3) eqn:E;
        [apply Z.leb_le in E; lia|].
      rewrite Hfind. cbn [Z.eqb negb].
      rewrite slice_prefix, slice_suffix by (unfold len in *; simpl in *; lia).
      change (Z.to_nat 1) with 1%nat. cbn [firstn skipn].
      rewrite alternate_cons, alternate_nil_l. reflexivity.
  - assert (E : insertPeopleWithDogLogic subArray = subArray).
    { unfold insertPeopleWithDogLogic.
      destruct (len subArray <=? 3) eqn:E; [reflexivity|].
      apply Z.leb_gt in E. lia. }
    rewrite !E. reflexivity.
Qed.

(** X6.  A slice of people who all have the same dog status is returned
    as it is, whatever its length. *)
Theorem insertPeopleWithDogLogic_same_status (subArray : list Person)
    (status : DogStatus) :
  Forall (fun p => Person.dogStatus p = status) subArray ->
  insertPeopleWithDogLogic subArray = subArray.
Proof.
  intros Hall. unfold insertPeopleWithDogLogic.
  destruct (len subArray <=? 3); [reflexivity|].
  assert (Hk : findIndex differsFromFirst subArray = -1).
  { unfold findIndex. apply findIndexFrom_none. intros item i Hin.
    unfold differsFromFirst. destruct subArray as [|first t]; [contradiction|].
    rewrite Forall_forall in Hall.
    rewrite (Hall item Hin), (Hall first (or_introl eq_refl)).
    destruct (DogStatus_eqb_spec status status); [|congruence].
    apply andb_false_r. }
  rewrite Hk. reflexivity.
Qed.

Lemma insertPeopleWithDogLogic_same_status_witness :
  Forall (fun p => Person.dogStatus p = Have)
    [ teamless "h1" Have; teamless "h2" Have; teamless "h3" Have;
      teamless "h4" Have; teamless "h5" Have ]
  /\ insertPeopleWithDogLogic
       [ teamless "h1" Have; teamless "h2" Have; teamless "h3" Have;
         teamless "h4" Have; teamless "h5" Have ]
     = [ teamless "h1" Have; teamless "h2" Have; teamless "h3" Have;
         teamless "h4" Have; teamless "h5" Have ].
Proof.
  assert (H : Forall (fun p => Person.dogStatus p = Have)
    [ teamless "h1" Have; teamless "h2" Have; teamless "h3" Have;
      teamless "h4" Have; teamless "h5" Have ])
    by (repeat constructor).
  split; [exact H|].
  exact (insertPeopleWithDogLogic_same_status _ Have H).
Defined.

(* ----------------------------------------------------------------- *)
(** ** The comparator of the first sort *)

Lemma sortByTeamAndDogStatus_opp (a b : Person) :
  sortByTeamAndDogStatus b a = - sortByTeamAndDogStatus a b
  /\ -1 <= sortByTeamAndDogStatus a b <= 1.
Proof.
  assert (Hs : forall x y : DogStatus,
    (if DogStatusOrder y <? DogStatusOrder x then -1
     else if DogStatusOrder y >? DogStatusOrder x then 1 else 0)
    = - (if DogStatusOrder x <? DogStatusOrder y then -1
         else if DogStatusOrder x >? DogStatusOrder y then 1 else 0)
    /\ -1 <= (if DogStatusOrder x <? DogStatusOrder y then -1
             else if DogStatusOrder x >? DogStatusOrder y then 1 else 0) <= 1)
    by (intros [] []; simpl; lia).
  unfold sortByTeamAndDogStatus.
  destruct (Person.team a) as [ta|], (Person.team b) as [tb|]; try apply Hs.
  rewrite (String.eqb_sym (Team.id tb) (Team.id ta)).
  destruct (String.eqb (Team.id ta) (Team.id tb)); simpl; [apply Hs|].
  split; [apply localeCompare_opp|apply localeCompare_range].
Qed.

(** X7.  [sortByTeamAndDogStatus] is antisymmetric, with values -1, 0 and
    1, but it is not a consistent comparator: somebody without a team is
    compared by dog status alone, which can close a cycle through two
    teams. *)
Theorem sortByTeamAndDogStatus_antisymmetric_not_transitive :
  (forall a b : Person,
      sortByTeamAndDogStatus b a = - sortByTeamAndDogStatus a b
      /\ -1 <= sortByTeamAndDogStatus a b <= 1)
  /\ (exists a b c : Person,
         sortByTeamAndDogStatus a b < 0
         /\ sortByTeamAndDogStatus b c < 0
         /\ sortByTeamAndDogStatus c a < 0).
Proof.
  split; [exact sortByTeamAndDogStatus_opp|].
  exists (member "a1" "a" Have), (member "b1" "b" Avoid), (teamless "n" Like).
  split; [reflexivity|]. split; reflexivity.
Qed.









(* ----------------------------------------------------------------- *)
(** ** The classifier and the rank map, for every sequence of people *)

(** X9.  The summaries [sortTeamsByCategory] returns are in the order of
    the ordinals of their categories: [DOG_HATERS], then [MIXED], then
    [DOG_LOVERS]. *)
Theorem sortTeamsByCategory_in_category_order (people : list Person) :
  StronglySorted
    (fun a b => TeamCategory_ord (category a) <= TeamCategory_ord (category b))
    (sortTeamsByCategory people)
  /\ (forall i j a b, (i < j)%nat ->
        nth_error (sortTeamsByCategory people) i = Some a ->
        nth_error (sortTeamsByCategory people) j = Some b ->
        TeamCategory_ord (category a) <= TeamCategory_ord (category b)).
Proof.
  assert (H : StronglySorted
    (fun a b => TeamCategory_ord (category a) <= TeamCategory_ord (category b))
    (sortTeamsByCategory people)).
  { unfold sortTeamsByCategory.
    eapply StronglySorted_weaken;
      [apply (sort_sorted TeamSummary byCategory (fun _ => True))|].
    - unfold byCategory. intros. lia.
    - unfold byCategory. intros. lia.
    - apply Forall_forall. auto.
    - unfold byCategory. intros x y _ _ Hxy. lia. }
  split; [exact H|].
  intros i j a b Hij Hi Hj. apply (StronglySorted_nth _ _ H i j a b Hij Hi Hj).
Qed.

(** One iteration of the classifier closes at most one run, and the team
    ids it keeps are team ids it has read. *)
Lemma classifyStep_bounds (Q : option string -> Prop) (st : ClassifierState)
    (p : Person) :
  Q (teamId (currSummary st)) -> Q (teamIdOf p) ->
  Forall (fun s => Q (teamId s)) (teamSummaries st) ->
  (length (teamSummaries (classifyStep st p)) <= S (length (teamSummaries st)))%nat
  /\ Q (teamId (currSummary (classifyStep st p)))
  /\ Forall (fun s => Q (teamId s)) (teamSummaries (classifyStep st p)).
Proof.
  intros Hc Hp Hs.
  destruct (truthy (teamId (currSummary st))) eqn:Et.
  - destruct (looseEq (teamId (currSummary st)) (teamIdOf p)) eqn:E.
    + rewrite (classifyStep_extend st p Et E). simpl. auto.
    + rewrite (classifyStep_close st p Et E). simpl. unfold closeRun.
      rewrite length_app. simpl. split; [lia|]. split; [exact Hp|].
      apply Forall_app. split; [exact Hs|]. repeat constructor. exact Hc.
  - rewrite (classifyStep_refresh st p Et). simpl. auto.
Qed.

Lemma classify_bounds (Q : option string -> Prop) (people : list Person) :
  forall st,
  Q (teamId (currSummary st)) ->
  Forall (fun p => Q (teamIdOf p)) people ->
  Forall (fun s => Q (teamId s)) (teamSummaries st) ->
  (length (closeRun (fold_left classifyStep people st))
   <= S (length (teamSummaries st) + length people))%nat
  /\ Forall (fun s => Q (teamId s)) (closeRun (fold_left classifyStep people st)).
Proof.
  induction people as [|p t IH]; intros st Hc Hp Hs; simpl.
  - unfold closeRun. rewrite length_app. simpl. split; [lia|].
    apply Forall_app. split; [exact Hs|]. repeat constructor. exact Hc.
  - inversion Hp as [|? ? Hp1 Hp2]; subst.
    destruct (classifyStep_bounds Q st p Hc Hp1 Hs) as (Hl & Hc' & Hs').
    destruct (IH (classifyStep st p) Hc' Hp2 Hs') as [Hl' Hq'].
    split; [lia|exact Hq'].
Qed.

(** X10.  [sortTeamsByCategory] returns at least one summary, also for
    nobody, and at most one for each person; and the team id of a
    summary is [null] or the team id of one of the people. *)
Theorem sortTeamsByCategory_size_and_ids (people : list Person) :
  (1 <= length (sortTeamsByCategory people) <= Nat.max 1 (length people))%nat
  /\ (forall s, In s (sortTeamsByCategory people) ->
        teamId s = None
        \/ exists p, In p people /\ teamIdOf p = teamId s).
Proof.
  set (Q := fun o : option string =>
              o = None \/ exists p, In p people /\ teamIdOf p = o).
  assert (Hp : Forall (fun p => Q (teamIdOf p)) people).
  { apply Forall_forall. intros p Hin. right. exists p. auto. }
  unfold sortTeamsByCategory.
  rewrite (Permutation_length (sort_perm _ _)).
  split.
  - destruct people as [|p t].
    + simpl. lia.
    + cbn [fold_left]. rewrite (classifyStep_refresh classifierInit p eq_refl).
      inversion Hp as [|? ? Hp1 Hp2]; subst.
      match goal with |- context [fold_left classifyStep t ?st] =>
        destruct (classify_bounds Q t st Hp1 Hp2 (Forall_nil _)) as [Hl _] end.
      split.
      * unfold closeRun. rewrite length_app. simpl. lia.
      * change (teamSummaries classifierInit) with (@nil TeamSummary) in *.
        cbn [teamSummaries length Nat.add] in Hl. cbn [length]. lia.
  - intros s Hin. apply (Permutation_in _ (sort_perm _ _)) in Hin.
    destruct (classify_bounds Q people classifierInit) as [_ Hq].
    + left. reflexivity.
    + exact Hp.
    + constructor.
    + rewrite Forall_forall in Hq. apply (Hq s Hin).
Qed.

(** X11.  When the team ids are valid, every team of the people gets a
    summary, and so an entry in the rank map: the lookup of the rank of a
    member of a team never falls back on the maximum. *)
Theorem every_team_is_ranked (people : list Person) :
  validIds people ->
  forall p i, In p people -> teamIdOf p = Some i ->
    (exists s, In s (sortTeamsByCategory people) /\ teamId s = Some i)
    /\ Map_get (teamRankMapOf people) (keyOfPerson p) <> None
    /\ rankOf (teamRankMapOf people) p <> MAX_SAFE_INTEGER.
Proof.
  intros Hv p i Hin Hp. apply validIds_Forall in Hv.
  destruct (sortTeamsByCategory_covers people p i Hv Hin Hp) as (s & Hs & Hid).
  split; [exists s; auto|].
  pose proof (buildTeamRankMap_present _ s Hs) as Hpres.
  unfold keyOfSummary in Hpres. rewrite Hid in Hpres.
  unfold teamRankMapOf, keyOfPerson. rewrite Hp. split; [exact Hpres|].
  assert (Hr : 0 <= rankOf (buildTeamRankMap (sortTeamsByCategory people)) p <= 3)
    by (apply (rankOf_team _ p i Hp); exists s; auto).
  unfold MAX_SAFE_INTEGER. lia.
Qed.

Lemma every_team_is_ranked_witness :
  validIds twoTeams
  /\ rankOf (teamRankMapOf twoTeams) (member "b2" "b" Avoid) <> MAX_SAFE_INTEGER.
Proof.
  assert (H : validIds twoTeams) by reflexivity.
  split; [exact H|].
  refine (proj2 (proj2 (every_team_is_ranked twoTeams H
            (member "b2" "b" Avoid) "b"%string _ eq_refl))).
  right. right. left. reflexivity.
Defined.

(** X12.  Whatever the people, the rank the second sort reads for a
    person is 0, 1 or 3 (the ordinal of [DOG_HATERS], [MIXED] or
    [DOG_LOVERS]) or the maximum: the ordinal 2 of [NO_TEAM] is never a
    rank. *)
Theorem rankOf_values (grouped : list Person) (p : Person) :
  rankOf (teamRankMapOf grouped) p = 0
  \/ rankOf (teamRankMapOf grouped) p = 1
  \/ rankOf (teamRankMapOf grouped) p = 3
  \/ rankOf (teamRankMapOf grouped) p = MAX_SAFE_INTEGER.
Proof.
  unfold rankOf, teamRankMapOf.
  destruct (Map_get (buildTeamRankMap (sortTeamsByCategory grouped)) (keyOfPerson p))
    as [v|] eqn:E; [|auto].
  apply buildTeamRankMap_get in E. destruct E as (s & Hin & _ & ->).
  assert (Hc : category s <> NO_TEAM).
  { unfold sortTeamsByCategory in Hin.
    apply (Permutation_in _ (sort_perm _ _)) in Hin.
    pose proof (classify_categories grouped classifierInit (Forall_nil _)) as H.
    rewrite Forall_forall in H. apply H, Hin. }
  destruct (category s); simpl; auto. congruence.
Qed.

(* ----------------------------------------------------------------- *)
(** ** The interleaving pass and those who avoid dogs *)

Lemma perm_same_image {B : Type} (f : Person -> B) (c : B) (l l' : list Person) :
  Permutation l' l ->
  Forall (fun y => y = c) (map f l) ->
  map f l' = map f l.
Proof.
  intros Hp Hc.
  assert (Hc' : Forall (fun y => y = c) (map f l')).
  { eapply Permutation_Forall; [|exact Hc].
    apply Permutation_map, Permutation_sym, Hp. }
  rewrite (map_constant _ _ _ Hc), (map_constant _ _ _ Hc').
  f_equal. apply Permutation_length, Hp.
Qed.

(** A flush on a valid range whose people have the same image under [f]
    leaves the images where they are. *)
Lemma flush_keeps_image {B : Type} (f : Person -> B) (c : B) (u : list Person)
    (s e : Z) :
  0 <= s -> s <= e -> e < len u ->
  Forall (fun y => y = c)
    (firstn (Z.to_nat (e - s + 1)) (skipn (Z.to_nat s) (map f u))) ->
  map f (fst (reorderSubArray u s e insertPeopleWithDogLogic)) = map f u.
Proof.
  intros H1 H2 H3 Hc.
  pose proof (valid_range_parts u s e H1 H2 H3) as Hdec.
  rewrite (reorderSubArray_eq u s e insertPeopleWithDogLogic H1 H2 H3). cbn [fst].
  rewrite skipn_map, firstn_map in Hc.
  set (before := firstn (Z.to_nat s) u) in *.
  set (target := firstn (Z.to_nat (e - s + 1)) (skipn (Z.to_nat s) u)) in *.
  set (after := skipn (Z.to_nat (e + 1)) u) in *.
  transitivity (map f (before ++ target ++ after));
    [|rewrite <- Hdec; reflexivity].
  rewrite !map_app. do 2 f_equal.
  apply (perm_same_image f c); [apply insertPeopleWithDogLogic_perm | exact Hc].
Qed.

Lemma avoider_None (p : Person) :
  avoider p = None <-> DogStatus_eqb (Person.dogStatus p) Avoid = false.
Proof.
  unfold avoider. destruct (DogStatus_eqb (Person.dogStatus p) Avoid);
    split; intros H; congruence.
Qed.

(** One iteration of the scan, for those who avoid dogs. *)
Lemma scanStep_avoiders (sortedPeople pre : list Person) (p : Person)
    (rest : list Person) (st : ScanState) :
  sortedPeople = pre ++ p :: rest ->
  scanInv sortedPeople pre st ->
  avoidersInv sortedPeople pre st ->
  avoidersInv sortedPeople (pre ++ [p]) (fst (scanStep st p (len pre))).
Proof.
  intros Hsplit Hinv [Hmap Hrun].
  pose proof (refresh_inv sortedPeople pre p rest st Hsplit Hinv) as (Hperm & Hstart & _).
  assert (Hmap1 : map avoider (updatedPeople (refreshCurrTeam st p))
                  = map avoider sortedPeople).
  { unfold refreshCurrTeam. destruct (negb (truthy (currTeam st))); exact Hmap. }
  assert (Hrun1 : startSearchFlag (refreshCurrTeam st p) = true ->
            Forall (fun y => y = None)
              (skipn (Z.to_nat (startPointer (refreshCurrTeam st p)))
                 (map avoider pre))).
  { unfold refreshCurrTeam. destruct (negb (truthy (currTeam st))); exact Hrun. }
  unfold scanStep. cbv zeta.
  set (st1 := refreshCurrTeam st p) in *. clearbody st1. clear Hmap Hrun Hinv st.
  assert (Hopen : forall u, map avoider u = map avoider sortedPeople ->
            avoider p = None ->
            avoidersInv sortedPeople (pre ++ [p])
              {| currTeam := teamIdOf p; startPointer := len pre;
                 startSearchFlag := true; updatedPeople := u |}).
  { intros u Hu Hp. split; [exact Hu|]. intros _. simpl.
    unfold len. rewrite Nat2Z.id, map_app, skipn_app.
    rewrite skipn_all2 by (rewrite length_map; lia).
    rewrite length_map, Nat.sub_diag. simpl. rewrite Hp. repeat constructor. }
  destruct (closesRun st1 p) eqn:Ec.
  - assert (Hflag : startSearchFlag st1 = true)
      by (unfold closesRun in Ec; apply andb_true_iff in Ec; tauto).
    specialize (Hstart Hflag). specialize (Hrun1 Hflag).
    assert (Hlen : len (updatedPeople st1) = len pre + 1 + len rest).
    { unfold len. rewrite (Permutation_length Hperm), Hsplit, length_app. simpl. lia. }
    pose proof (len_nonneg rest) as Hr.
    assert (Hu : map avoider
                   (fst (reorderSubArray (updatedPeople st1) (startPointer st1)
                           (len pre - 1) insertPeopleWithDogLogic))
                 = map avoider sortedPeople).
    { rewrite <- Hmap1. apply (flush_keeps_image avoider None); try lia.
      rewrite Hmap1, Hsplit, map_app.
      replace (Z.to_nat (len pre - 1 - startPointer st1 + 1))
        with (length (map avoider pre) - Z.to_nat (startPointer st1))%nat
        by (rewrite length_map; unfold len in *; lia).
      rewrite firstn_skipn_app by (rewrite length_map; unfold len in *; lia).
      exact Hrun1. }
    destruct (reorderSubArray (updatedPeople st1) (startPointer st1) (len pre - 1)
                insertPeopleWithDogLogic) as [u' w] eqn:Eu.
    cbn [fst] in Hu. simpl.
    destruct (DogStatus_eqb (Person.dogStatus p) Avoid) eqn:Ea; simpl.
    + split; [exact Hu|]. simpl. discriminate.
    + apply Hopen; [exact Hu|]. apply avoider_None, Ea.
  - simpl. destruct (startSearchFlag st1) eqn:Ef; simpl.
    + split; [exact Hmap1|]. intros _. specialize (Hstart eq_refl).
      rewrite map_app, skipn_app. apply Forall_app. split; [apply Hrun1; reflexivity|].
      replace (Z.to_nat (startPointer st1) - length (map avoider pre))%nat with 0%nat
        by (rewrite length_map; unfold len in Hstart; lia).
      simpl. repeat constructor. apply avoider_None.
      unfold closesRun in Ec. rewrite Ef in Ec. simpl in Ec.
      apply orb_false_iff in Ec. destruct Ec as [Ec1 Ec2].
      apply negb_false_iff in Ec1. rewrite Ec1 in Ec2. exact Ec2.
    + destruct (DogStatus_eqb (Person.dogStatus p) Avoid) eqn:Ea; simpl.
      * split; [exact Hmap1|]. rewrite Ef. discriminate.
      * apply Hopen; [exact Hmap1|]. apply avoider_None, Ea.
Qed.

(** The scan over the whole array, for those who avoid dogs. *)
Lemma scan_avoiders (sortedPeople : list Person) (mid : list Person) :
  forall pre rest st,
  sortedPeople = pre ++ mid ++ rest ->
  scanInv sortedPeople pre st ->
  avoidersInv sortedPeople pre st ->
  avoidersInv sortedPeople (pre ++ mid)
    (fst (forEachIndexed scanStep mid (len pre) st)).
Proof.
  induction mid as [|p mid IH]; intros pre rest st Hsplit Hinv Hav.
  - rewrite app_nil_r. exact Hav.
  - pose proof (scanStep_avoiders sortedPeople pre p (mid ++ rest) st Hsplit Hinv Hav)
      as Hav1.
    destruct (scanStep_inv sortedPeople pre p (mid ++ rest) st Hsplit Hinv)
      as (st1 & Heq & H1).
    rewrite Heq in Hav1. cbn [fst] in Hav1.
    cbn [forEachIndexed]. rewrite Heq. unfold bind at 1.
    rewrite <- (len_snoc pre p).
    assert (Hsplit' : sortedPeople = (pre ++ [p]) ++ mid ++ rest)
      by (rewrite <- app_assoc; exact Hsplit).
    pose proof (IH (pre ++ [p]) rest st1 Hsplit' H1 Hav1) as IH'.
    rewrite <- app_assoc in IH'.
    destruct (forEachIndexed scanStep mid (len (pre ++ [p])) st1) as [st' w].
    exact IH'.
Qed.

(** The interleaving pass has those who avoid dogs where its array has
    them. *)
Lemma interleavingPass_avoider_map (sortedPeople : list Person) :
  map avoider (fst (interleavingPass sortedPeople)) = map avoider sortedPeople.
Proof.
  destruct (scan_prefix_inv sortedPeople sortedPeople []) as (st & Heq & Hinv);
    [symmetry; apply app_nil_r|].
  pose proof (scan_avoiders sortedPeople sortedPeople [] [] (scanInit sortedPeople))
    as Hav.
  rewrite app_nil_r in Hav. specialize (Hav eq_refl).
  change (len []) with 0 in Hav. rewrite Heq in Hav. cbn [fst] in Hav.
  destruct Hav as [Hmap Hrun].
  - split; [apply Permutation_refl|]. split; [discriminate|].
    intros _ _. split; [reflexivity|discriminate].
  - split; [reflexivity|discriminate].
  - unfold interleavingPass. rewrite Heq. simpl.
    destruct Hinv as (Hperm & Hstart & _).
    destruct (startSearchFlag st) eqn:Ef; [|exact Hmap].
    specialize (Hstart eq_refl). specialize (Hrun eq_refl).
    assert (Hlen : len (updatedPeople st) = len sortedPeople)
      by (unfold len; rewrite (Permutation_length Hperm); reflexivity).
    rewrite <- Hmap.
    destruct (reorderSubArray (updatedPeople st) (startPointer st)
                (len (updatedPeople st) - 1) insertPeopleWithDogLogic)
      as [u' w] eqn:Eu.
    change u' with (fst (u', w)). rewrite <- Eu.
    apply (flush_keeps_image avoider None); try lia.
    rewrite Hmap. apply Forall_prefix. exact Hrun.
Qed.

Lemma avoider_map_nth (l l' : list Person) (i : nat) (p : Person) :
  map avoider l = map avoider l' ->
  nth_error l i = Some p -> Person.dogStatus p = Avoid ->
  nth_error l' i = Some p.
Proof.
  intros H Hi Hp.
  pose proof (map_nth_error avoider i l Hi) as Hm.
  rewrite H, nth_error_map in Hm.
  destruct (nth_error l' i) as [q|]; [|discriminate].
  simpl in Hm. unfold avoider in Hm. rewrite Hp in Hm. simpl in Hm.
  destruct (DogStatus_eqb (Person.dogStatus q) Avoid); congruence.
Qed.

(** X13.  The interleaving pass never moves somebody who avoids dogs:
    whatever array it is given, the result has at each index the person
    of the array when that person avoids dogs, and somebody who does not
    avoid dogs otherwise. *)
Theorem interleavingPass_keeps_avoiders (sortedPeople : list Person) :
  (forall i p, nth_error sortedPeople i = Some p ->
     Person.dogStatus p = Avoid ->
     nth_error (fst (interleavingPass sortedPeople)) i = Some p)
  /\ (forall i p q, nth_error sortedPeople i = Some p ->
        nth_error (fst (interleavingPass sortedPeople)) i = Some q ->
        Person.dogStatus p <> Avoid -> Person.dogStatus q <> Avoid).
Proof.
  pose proof (interleavingPass_avoider_map sortedPeople) as H.
  split.
  - intros i p Hi Hp. apply (avoider_map_nth sortedPeople _ i p); auto.
  - intros i p q Hi Hq Hp Hqa. apply Hp.
    pose proof (avoider_map_nth _ sortedPeople i q H Hq Hqa) as Hi'.
    congruence.
Qed.

(* ----------------------------------------------------------------- *)
(** ** The layout of people who all have a team *)









(** X15.  When the team ids are valid, the layout is in the order of the
    ranks: somebody whose rank is lower stands before somebody whose rank
    is higher, so the teams classified [DOG_HATERS] come first, then
    those classified [MIXED], then those classified [DOG_LOVERS], then
    the teamless people. *)
Theorem calculateDeskLayout_category_order (people : list Person) :
  validIds people ->
  forall i j p q,
    nth_error (calculateDeskLayout people) i = Some p ->
    nth_error (calculateDeskLayout people) j = Some q ->
    rankOf (teamRankMapOf (groupByTeam people)) p
    < rankOf (teamRankMapOf (groupByTeam people)) q ->
    (i < j)%nat.
Proof.
  intros Hv i j p q Hi Hj Hlt.
  destruct (Nat.lt_trichotomy i j) as [H|[->|H]]; [exact H| |].
  - rewrite Hi in Hj. injection Hj as ->. lia.
  - pose proof (calculateDeskLayout_ranks_ascend people Hv j i q p H Hj Hi). lia.
Qed.

Lemma calculateDeskLayout_category_order_witness :
  validIds twoTeams
  /\ (forall i j p q,
        nth_error (calculateDeskLayout twoTeams) i = Some p ->
        nth_error (calculateDeskLayout twoTeams) j = Some q ->
        rankOf (teamRankMapOf (groupByTeam twoTeams)) p
        < rankOf (teamRankMapOf (groupByTeam twoTeams)) q ->
        (i < j)%nat).
Proof.
  assert (H : validIds twoTeams) by reflexivity.
  split; [exact H|].
  exact (calculateDeskLayout_category_order twoTeams H).
Defined.

(* ----------------------------------------------------------------- *)
(** ** Runs too short to interleave *)

Lemma nonAvoiders_all (l : list Person) :
  Forall (fun y => y = None) (map avoider l) -> nonAvoiders l = l.
Proof.
  unfold nonAvoiders. induction l as [|p t IH]; intros H; [reflexivity|].
  inversion H as [|? ? Hp Ht]; subst. cbn [filter].
  apply avoider_None in Hp. rewrite Hp. cbn [negb]. f_equal. apply IH, Ht.
Qed.

Lemma nonAvoiders_length_skipn (n : nat) (l : list Person) :
  Forall (fun y => y = None) (skipn n (map avoider l)) ->
  (length (skipn n l) <= length (nonAvoiders l))%nat.
Proof.
  intros H. rewrite skipn_map in H.
  rewrite <- (firstn_skipn n l) at 2. unfold nonAvoiders. rewrite filter_app.
  fold (nonAvoiders (skipn n l)). rewrite (nonAvoiders_all _ H), length_app. lia.
Qed.

(** A flush of at most three people changes nothing. *)
Lemma flush_short (u : list Person) (s e : Z) :
  0 <= s -> s <= e -> e < len u -> e - s + 1 <= 3 ->
  fst (reorderSubArray u s e insertPeopleWithDogLogic) = u.
Proof.
  intros H1 H2 H3 H4.
  rewrite (reorderSubArray_eq u s e insertPeopleWithDogLogic H1 H2 H3). cbn [fst].
  pose proof (valid_range_parts u s e H1 H2 H3) as Hdec.
  set (target := firstn (Z.to_nat (e - s + 1)) (skipn (Z.to_nat s) u)) in *.
  assert (Ht : insertPeopleWithDogLogic target = target).
  { unfold insertPeopleWithDogLogic.
    destruct (Z.leb_spec (len target) 3) as [_|Hgt]; [reflexivity|].
    exfalso. unfold target, len in Hgt. rewrite length_firstn in Hgt. lia. }
  rewrite Ht. symmetry. exact Hdec.
Qed.

(** One iteration of the scan when at most three people do not avoid
    dogs: [updatedPeople] stays the array being scanned. *)
Lemma scanStep_short (sortedPeople pre : list Person) (p : Person)
    (rest : list Person) (st : ScanState) :
  (length (nonAvoiders sortedPeople) <= 3)%nat ->
  sortedPeople = pre ++ p :: rest ->
  scanInv sortedPeople pre st ->
  avoidersInv sortedPeople pre st ->
  updatedPeople st = sortedPeople ->
  updatedPeople (fst (scanStep st p (len pre))) = sortedPeople.
Proof.
  intros Hfew Hsplit Hinv [_ Hrun] Hu.
  pose proof (refresh_inv sortedPeople pre p rest st Hsplit Hinv) as (_ & Hstart & _).
  assert (Hu1 : updatedPeople (refreshCurrTeam st p) = sortedPeople)
    by (unfold refreshCurrTeam; destruct (negb (truthy (currTeam st))); exact Hu).
  assert (Hrun1 : startSearchFlag (refreshCurrTeam st p) = true ->
            Forall (fun y => y = None)
              (skipn (Z.to_nat (startPointer (refreshCurrTeam st p)))
                 (map avoider pre)))
    by (unfold refreshCurrTeam; destruct (negb (truthy (currTeam st))); exact Hrun).
  unfold scanStep. cbv zeta.
  set (st1 := refreshCurrTeam st p) in *. clearbody st1. clear Hrun Hu Hinv st.
  destruct (closesRun st1 p) eqn:Ec.
  - assert (Hflag : startSearchFlag st1 = true)
      by (unfold closesRun in Ec; apply andb_true_iff in Ec; tauto).
    specialize (Hstart Hflag). specialize (Hrun1 Hflag).
    assert (Hcount : (length (skipn (Z.to_nat (startPointer st1)) pre) <= 3)%nat).
    { pose proof (nonAvoiders_length_skipn _ pre Hrun1) as H.
      assert (Hsub : (length (nonAvoiders pre) <= length (nonAvoiders sortedPeople))%nat).
      { rewrite Hsplit. unfold nonAvoiders. rewrite filter_app, length_app. lia. }
      lia. }
    rewrite length_skipn in Hcount.
    assert (Hlen : len sortedPeople = len pre + 1 + len rest).
    { unfold len. rewrite Hsplit, length_app. simpl. lia. }
    pose proof (len_nonneg rest) as Hr.
    assert (Hf : fst (reorderSubArray (updatedPeople st1) (startPointer st1)
                        (len pre - 1) insertPeopleWithDogLogic) = sortedPeople).
    { rewrite Hu1. apply flush_short; unfold len in *; lia. }
    destruct (reorderSubArray (updatedPeople st1) (startPointer st1) (len pre - 1)
                insertPeopleWithDogLogic) as [u' w].
    cbn [fst] in Hf. simpl.
    destruct (DogStatus_eqb (Person.dogStatus p) Avoid); simpl; exact Hf.
  - simpl. destruct (startSearchFlag st1); simpl; [exact Hu1|].
    destruct (DogStatus_eqb (Person.dogStatus p) Avoid); simpl; exact Hu1.
Qed.

Lemma scan_short (sortedPeople : list Person) (mid : list Person) :
  (length (nonAvoiders sortedPeople) <= 3)%nat ->
  forall pre rest st,
  sortedPeople = pre ++ mid ++ rest ->
  scanInv sortedPeople pre st ->
  avoidersInv sortedPeople pre st ->
  updatedPeople st = sortedPeople ->
  updatedPeople (fst (forEachIndexed scanStep mid (len pre) st)) = sortedPeople.
Proof.
  intros Hfew.
  induction mid as [|p mid IH]; intros pre rest st Hsplit Hinv Hav Hu.
  - exact Hu.
  - pose proof (scanStep_short sortedPeople pre p (mid ++ rest) st
                  Hfew Hsplit Hinv Hav Hu) as Hu1.
    pose proof (scanStep_avoiders sortedPeople pre p (mid ++ rest) st Hsplit Hinv Hav)
      as Hav1.
    destruct (scanStep_inv sortedPeople pre p (mid ++ rest) st Hsplit Hinv)
      as (st1 & Heq & H1).
    rewrite Heq in Hav1, Hu1. cbn [fst] in Hav1, Hu1.
    cbn [forEachIndexed]. rewrite Heq. unfold bind at 1.
    rewrite <- (len_snoc pre p).
    assert (Hsplit' : sortedPeople = (pre ++ [p]) ++ mid ++ rest)
      by (rewrite <- app_assoc; exact Hsplit).
    pose proof (IH (pre ++ [p]) rest st1 Hsplit' H1 Hav1 Hu1) as IH'.
    destruct (forEachIndexed scanStep mid (len (pre ++ [p])) st1) as [st' w].
    exact IH'.
Qed.

(** X16.  When at most three people of the array do not avoid dogs, the
    interleaving pass returns the array as it is. *)
Theorem interleavingPass_short_runs (sortedPeople : list Person) :
  (length (nonAvoiders sortedPeople) <= 3)%nat ->
  interleavingPass sortedPeople = (sortedPeople, []).
Proof.
  intros Hfew.
  destruct (scan_prefix_inv sortedPeople sortedPeople []) as (st & Heq & Hinv);
    [symmetry; apply app_nil_r|].
  assert (Hinit : scanInv sortedPeople [] (scanInit sortedPeople)).
  { split; [apply Permutation_refl|]. split; [discriminate|].
    intros _ _. split; [reflexivity|discriminate]. }
  assert (Hav0 : avoidersInv sortedPeople [] (scanInit sortedPeople))
    by (split; [reflexivity|discriminate]).
  pose proof (scan_short sortedPeople sortedPeople Hfew [] [] (scanInit sortedPeople))
    as Hu.
  pose proof (scan_avoiders sortedPeople sortedPeople [] [] (scanInit sortedPeople))
    as Hav.
  rewrite app_nil_r in Hu, Hav.
  specialize (Hu eq_refl Hinit Hav0 eq_refl). specialize (Hav eq_refl Hinit Hav0).
  change (len []) with 0 in Hu, Hav. rewrite Heq in Hu, Hav. cbn [fst] in Hu, Hav.
  cbn [app] in Hav. destruct Hav as [_ Hrun].
  unfold interleavingPass. rewrite Heq. simpl.
  destruct Hinv as (_ & Hstart & _).
  destruct (startSearchFlag st) eqn:Ef; [|rewrite Hu; reflexivity].
  specialize (Hstart eq_refl). specialize (Hrun eq_refl).
  pose proof (nonAvoiders_length_skipn _ sortedPeople Hrun) as Hc.
  rewrite length_skipn in Hc.
  pose proof (flush_short (updatedPeople st) (startPointer st)
                (len (updatedPeople st) - 1)) as Hf.
  rewrite Hu in *.
  assert (Hv : invalidRange sortedPeople (startPointer st) (len sortedPeople - 1) = false)
    by (apply invalidRange_false; lia).
  unfold reorderSubArray in *. rewrite Hv in *. unfold ret in *. cbn [fst] in Hf.
  rewrite Hf; [reflexivity| | | |]; unfold len in *; lia.
Qed.

Lemma interleavingPass_short_runs_witness :
  (length (nonAvoiders (rankTeams (groupByTeam twoTeams))) <= 3)%nat
  /\ interleavingPass (rankTeams (groupByTeam twoTeams))
     = (rankTeams (groupByTeam twoTeams), []).
Proof.
  assert (H : (length (nonAvoiders (rankTeams (groupByTeam twoTeams))) <= 3)%nat)
    by (vm_compute; lia).
  split; [exact H|].
  exact (interleavingPass_short_runs _ H).
Defined.

(* ----------------------------------------------------------------- *)
(** ** [TeamsPage]: the cache after a mutation *)

Lemma filter_nobody_found {A : Type} (f : A -> bool) (l : list A) :
  existsb f l = false -> filter (fun x => negb (f x)) l = l.
Proof.
  induction l as [|x t IH]; simpl; intros H; [reflexivity|].
  apply orb_false_iff in H. destruct H as [Hx Ht].
  rewrite Hx. simpl. f_equal. apply IH, Ht.
Qed.

(** The test [some] of [setTeam]'s update only saves a copy: a team is
    mapped to itself with the member filtered out. *)
Lemma withoutMember_filters (userId : string) (team : TeamWithMembers.t) :
  withoutMember userId team
  = TeamWithMembers.mk (TeamWithMembers.id team) (TeamWithMembers.name team)
      (filter (fun member => negb (String.eqb (Member.id member) userId))
         (TeamWithMembers.members team)).
Proof.
  unfold withoutMember.
  destruct (existsb (fun member => String.eqb (Member.id member) userId)
              (TeamWithMembers.members team)) eqn:E; [reflexivity|].
  rewrite (filter_nobody_found _ _ E). destruct team; reflexivity.
Qed.

(** X17.  The update of [putTeam] never drops or moves a team.  On an
    edit ([variables.id] given) it writes the cached teams with the same
    ids in the same order, every team with the id of the saved team
    replaced by it, and the cached list itself when no team has that id;
    otherwise it writes the cached teams followed by the saved team.  It
    writes nothing when the result or the cached teams are missing. *)
Theorem putTeam_update_keeps_teams (teams : list TeamWithMembers.t)
    (putTeam : TeamWithMembers.t) (variablesId : option string) :
  (exists written,
      putTeam_update (Some teams) (Some putTeam) variablesId = Some written
      /\ (truthy variablesId = true ->
          map TeamWithMembers.id written = map TeamWithMembers.id teams
          /\ (forall team, In team written ->
                TeamWithMembers.id team = TeamWithMembers.id putTeam ->
                team = putTeam)
          /\ (~ In (TeamWithMembers.id putTeam) (map TeamWithMembers.id teams) ->
              written = teams))
      /\ (truthy variablesId = false -> written = teams ++ [putTeam]))
  /\ putTeam_update None (Some putTeam) variablesId = None
  /\ putTeam_update (Some teams) None variablesId = None.
Proof.
  split; [|split; reflexivity].
  unfold putTeam_update. eexists. split; [reflexivity|].
  destruct (truthy variablesId); split; try discriminate; intros _;
    [|reflexivity].
  split; [|split].
  - rewrite map_map. apply map_ext_in. intros team _.
    destruct (String.eqb_spec (TeamWithMembers.id team) (TeamWithMembers.id putTeam));
      congruence.
  - intros team Hin Hid. apply in_map_iff in Hin. destruct Hin as (t0 & Ht0 & _).
    destruct (String.eqb_spec (TeamWithMembers.id t0) (TeamWithMembers.id putTeam));
      [congruence|]. subst. contradiction.
  - intros Hnot. rewrite <- (map_id teams) at 2. apply map_ext_in.
    intros team Hin.
    destruct (String.eqb_spec (TeamWithMembers.id team) (TeamWithMembers.id putTeam))
      as [E|E]; [|reflexivity].
    exfalso. apply Hnot. rewrite <- E. apply in_map, Hin.
Qed.

(** X18.  The update of [setTeam] takes the person out of every team: in
    the teams it writes no team has a member with the id of the person,
    every team keeps its id, its name and its other members in their
    order, and the teams keep their order. *)
Theorem setTeam_update_removes_member (teams : list TeamWithMembers.t)
    (cachedPeople : option (list Person)) (setTeam : Person) :
  exists written,
    fst (setTeam_update (Some teams) cachedPeople (Some setTeam)) = Some written
    /\ written
       = map (fun team =>
                TeamWithMembers.mk (TeamWithMembers.id team)
                  (TeamWithMembers.name team)
                  (filter (fun member =>
                             negb (String.eqb (Member.id member) (Person.id setTeam)))
                     (TeamWithMembers.members team))) teams
    /\ map TeamWithMembers.id written = map TeamWithMembers.id teams
    /\ map TeamWithMembers.name written = map TeamWithMembers.name teams
    /\ (forall team member,
          In team written -> In member (TeamWithMembers.members team) ->
          Member.id member <> Person.id setTeam).
Proof.
  exists (map (withoutMember (Person.id setTeam)) teams).
  split; [unfold setTeam_update; destruct cachedPeople; reflexivity|].
  assert (E : map (withoutMember (Person.id setTeam)) teams
              = map (fun team =>
                TeamWithMembers.mk (TeamWithMembers.id team)
                  (TeamWithMembers.name team)
                  (filter (fun member =>
                             negb (String.eqb (Member.id member) (Person.id setTeam)))
                     (TeamWithMembers.members team))) teams)
    by (apply map_ext; intros team; apply withoutMember_filters).
  split; [exact E|]. rewrite E.
  split; [rewrite map_map; reflexivity|].
  split; [rewrite map_map; reflexivity|].
  intros team member Hteam Hmember.
  apply in_map_iff in Hteam. destruct Hteam as (t0 & <- & _).
  simpl in Hmember. apply filter_In in Hmember. destruct Hmember as [_ H].
  apply negb_true_iff, String.eqb_neq in H. exact H.
Qed.

(** X19.  The update of [setTeam] and the people: it writes the cached
    people with the same ids in the same order, everybody with the id of
    the person replaced by the person; and when the teams query is not in
    the cache it writes nothing, not even the people. *)
Theorem setTeam_update_people (teams : list TeamWithMembers.t)
    (people : list Person) (setTeam : Person) :
  (exists written,
      snd (setTeam_update (Some teams) (Some people) (Some setTeam)) = Some written
      /\ map Person.id written = map Person.id people
      /\ (forall person, In person written ->
            Person.id person = Person.id setTeam -> person = setTeam)
      /\ (forall i person, nth_error people i = Some person ->
            Person.id person <> Person.id setTeam ->
            nth_error written i = Some person))
  /\ setTeam_update None (Some people) (Some setTeam) = (None, None)
  /\ setTeam_update (Some teams) (Some people) None = (None, None).
Proof.
  split; [|split; reflexivity].
  unfold setTeam_update. cbn [snd]. eexists. split; [reflexivity|].
  split; [|split].
  - rewrite map_map. apply map_ext. intros person.
    destruct (String.eqb_spec (Person.id person) (Person.id setTeam)); congruence.
  - intros person Hin Hid. apply in_map_iff in Hin. destruct Hin as (p0 & Hp0 & _).
    destruct (String.eqb_spec (Person.id p0) (Person.id setTeam)); [congruence|].
    subst. contradiction.
  - intros i person Hi Hne. rewrite nth_error_map, Hi. simpl.
    destruct (String.eqb_spec (Person.id person) (Person.id setTeam));
      [contradiction|reflexivity].
Qed.

(** X20.  [handleEditTeamChange] only renames: the teams it writes have
    the ids and the members of the cached teams, position by position,
    the teams with the id asked take the name, the others keep theirs;
    and of two edits of one team the last one wins. *)
Theorem handleEditTeamChange_renames (teams : list TeamWithMembers.t)
    (teamId name : string) :
  (exists written,
      handleEditTeamChange (Some teams) teamId name = Some written
      /\ map TeamWithMembers.id written = map TeamWithMembers.id teams
      /\ map TeamWithMembers.members written = map TeamWithMembers.members teams
      /\ map TeamWithMembers.name written
         = map (fun team => if String.eqb (TeamWithMembers.id team) teamId
                            then name else TeamWithMembers.name team) teams)
  /\ (forall name',
        handleEditTeamChange (handleEditTeamChange (Some teams) teamId name)
          teamId name'
        = handleEditTeamChange (Some teams) teamId name')
  /\ handleEditTeamChange None teamId name = None.
Proof.
  split; [|split; [|reflexivity]].
  - unfold handleEditTeamChange. eexists. split; [reflexivity|].
    split; [|split]; rewrite map_map; apply map_ext; intros team;
      destruct (String.eqb (TeamWithMembers.id team) teamId); reflexivity.
  - intros name'. unfold handleEditTeamChange. f_equal.
    rewrite map_map. apply map_ext. intros team.
    destruct (String.eqb (TeamWithMembers.id team) teamId) eqn:E; simpl;
      rewrite ?E; reflexivity.
Qed.

(* ----------------------------------------------------------------- *)
(** ** The category of a team is the category of its members *)















